(** * Cluster-Images: the unified image endpoint ([server/app/image.py])

    A shallow embedding of the repository-name encoder and of the
    [GET /images] aggregator, with the properties of the specification
    stated over them.

    Python [str] values are modelled as [string]; the only character the
    code inspects is ['/'].  The mutable [result] dict, the function's
    locals and the requests sent to the registry are threaded through a
    state-and-exception monad; Python exceptions are values of [exn]. *)

From Stdlib Require Import Ascii String List Bool Arith ZArith Lia.
Import ListNotations.
Open Scope string_scope.
Open Scope list_scope.

(** ** Python string primitives used by the module *)

Module PyStr.

Definition slash : ascii := "/"%char.

(** [s.startswith(p)] *)
Definition startswith (s p : string) : bool := String.prefix p s.

(** [s[n:]] *)
Fixpoint slice_from (n : nat) (s : string) : string :=
  match n, s with
  | O, _ => s
  | S _, EmptyString => EmptyString
  | S n', String _ s' => slice_from n' s'
  end.

(** [s.split(sep, 1)]: at most one split, at the first [sep]. *)
Fixpoint split1 (sep : ascii) (s : string) : list string :=
  match s with
  | EmptyString => [EmptyString]
  | String c s' =>
      if Ascii.eqb c sep then [EmptyString; s']
      else match split1 sep s' with
           | before :: rest => String c before :: rest
           | [] => [String c EmptyString]
           end
  end.

(** [s.replace(old, new)] for a one-character [old]. *)
Fixpoint replace (old : ascii) (new : string) (s : string) : string :=
  match s with
  | EmptyString => EmptyString
  | String c s' =>
      if Ascii.eqb c old then (new ++ replace old new s')%string
      else String c (replace old new s')
  end.

(** [s.rstrip('/')] and friends: drop every trailing [c]. *)
Fixpoint rstrip (c : ascii) (s : string) : string :=
  match s with
  | EmptyString => EmptyString
  | String a s' =>
      match rstrip c s' with
      | EmptyString => if Ascii.eqb a c then EmptyString else String a EmptyString
      | t => String a t
      end
  end.

(** [c in s] *)
Fixpoint contains (c : ascii) (s : string) : bool :=
  match s with
  | EmptyString => false
  | String a s' => Ascii.eqb a c || contains c s'
  end.

End PyStr.

(** ** [encode_repository_name] (image.py, lines 135-170)

    The [logger.debug] call is a side channel and is not modelled. *)

Definition encode_repository_name (full_repo_name project_name : string) : string :=
  let repo_path :=
    if PyStr.startswith full_repo_name (project_name ++ "/")%string
    then PyStr.slice_from (String.length project_name + 1) full_repo_name
    else
      let parts := PyStr.split1 PyStr.slash full_repo_name in
      if Nat.ltb 1 (List.length parts) then nth 1 parts EmptyString else full_repo_name in
  let encoded_name := PyStr.replace PyStr.slash "%252F" repo_path in
  encoded_name.


(** ** Data model

    Items decoded from the registry's JSON follow the Harbor v2.0 schema
    for the keys the code subscripts and never provides for (['name'],
    ['digest']).  The code provides for a missing ['tags'] (line 283) and
    for a missing ['size'] (line 289), so these two keys are optional here
    and the value under ['size'] is whatever JSON holds. *)

Record Project := { proj_name : string }.

Record Repository := { repo_name : string }.

Record Tag := { tag_name : string }.

Inductive TagsField :=
| TagsAbsent                    (* no 'tags' key *)
| TagsNull                      (* "tags": null *)
| TagsList (tags : list Tag).   (* "tags": [...] *)

(** What JSON may hold under ['size'] (a number with a fraction is left
    out; an array or an object is [RComposite]). *)
Inductive RawSize :=
| RInt (bytes : Z)
| RText (s : string)
| RBool (b : bool)
| RNull
| RComposite.

(** An artifact dict; [S] is the type held under ['size']: as fetched, an
    [option RawSize] ([None] when the key is missing); a [string] once
    line 280 has overwritten it. *)
Record Artifact (S : Type) := {
  art_digest : string;
  art_size : S;
  art_tags : TagsField }.
Arguments art_digest {S}.
Arguments art_size {S}.
Arguments art_tags {S}.

(** A runtime image record, as returned by [parse_crictl_images_output]. *)
Record ImageRecord := {
  img_repository : string;
  img_tag : string;
  img_image_id : string;
  img_size : string }.

(** The dict appended at lines 285-291. *)
Record HarborImageRecord := {
  repository : string;
  tag : string;
  digest : string;
  size : string;
  project : string }.

(** An entry of [result["errors"]]; the ['repository'] key is optional. *)
Record SourceError := {
  source : string;
  err_repository : option string;
  error : string }.

(** The [result] dict of [get_all_images]. *)
#[projections(primitive)]
Record AggregateResult := {
  containerd_images : list ImageRecord;
  harbor_images : list HarborImageRecord;
  errors : list SourceError }.

(** Exceptions, known to the handlers through [str(e)] only. *)
Record exn := Exception { str : string }.

(** [KeyError(k)] *)
Definition KeyError (k : string) : exn := Exception ("'" ++ k ++ "'")%string.

(** ** Configuration ([DEFAULT_CONFIG], the sections the handler reads) *)

Record CrictlConfig := { ignore_file_path : string }.

Record HarborConfig := {
  url : string;
  user : string;
  password : string;
  verify_ssl : bool }.

Record AppSettings := {
  crictl_config : CrictlConfig;
  harbor_config : HarborConfig }.

(** ** Collaborators *)

(** What [process.communicate(timeout=30)] leaves behind. *)
Record Completed := {
  returncode : Z;
  stdout : list Byte.byte;
  stderr : list Byte.byte }.

(** The containerd side: the subprocess, the codec and the two functions
    imported from [image_api].  [crictl_images] is [inl e] when [Popen] or
    [communicate] raises [e] (spawn error, or [TimeoutExpired] after the
    30 s of line 209). *)
Record Runtime := {
  crictl_images : exn + Completed;
  decode_utf8 : list Byte.byte -> exn + string;
  strip : string -> string;
  load_ignored_image_ids : string -> exn + list string;
  parse_crictl_images_output : string -> list string -> exn + list ImageRecord }.

(** One call of [get_harbor_paginated_results(url, auth, params, verify_ssl)]. *)
Record Request := {
  req_url : string;
  req_auth : string * string;
  req_params : list (string * string);
  req_verify_ssl : bool }.

(** The harbor side: [get_harbor_paginated_results] (imported from
    [harbor_image_api]) at the three endpoints it is called on, with the
    items decoded at each endpoint's schema, and [humanize.naturalsize],
    which raises on the values it cannot read as a number.
    [inl e] is a call that raises [e].  An answer is a function of the
    request: the registry does not change while one request is served. *)
Record Registry := {
  get_projects : Request -> exn + list Project;
  get_repositories : Request -> exn + list Repository;
  get_artifacts : Request -> exn + list (Artifact (option RawSize));
  naturalsize : RawSize -> exn + string }.

Record World := {
  runtime : Runtime;
  registry : Registry }.

(** ** The handler's frame and its monad *)

#[projections(primitive)]
Record Frame := {
  result : AggregateResult;
  local_harbor_images : list HarborImageRecord;  (* the local [harbor_images] *)
  sent : list Request                            (* registry calls so far *) }.

Definition M (A : Type) : Type := Frame -> (exn + A) * Frame.

Definition ret {A} (a : A) : M A := fun f => (inr a, f).

Definition bind {A B} (m : M A) (k : A -> M B) : M B :=
  fun f => match m f with
           | (inr a, f') => k a f'
           | (inl e, f') => (inl e, f')
           end.

Notation "x <- m ;; k" := (bind m (fun x => k))
  (at level 61, m at next level, right associativity).
Notation "m ;; k" := (bind m (fun _ => k))
  (at level 61, right associativity).

(** [try: m except Exception as e: h e] *)
Definition try_except {A} (m : M A) (h : exn -> M A) : M A :=
  fun f => match m f with
           | (inl e, f') => h e f'
           | r => r
           end.

(** A call that returns or raises without touching the frame. *)
Definition lift {A} (r : exn + A) : M A := fun f => (r, f).

(** A registry call: recorded, then answered. *)
Definition call {A} (api : Request -> exn + A) (rq : Request) : M A :=
  fun f => (api rq,
            {| result := result f;
               local_harbor_images := local_harbor_images f;
               sent := sent f ++ [rq] |}).

Definition update_result (g : AggregateResult -> AggregateResult) : M unit :=
  fun f => (inr tt,
            {| result := g (result f);
               local_harbor_images := local_harbor_images f;
               sent := sent f |}).

(** [result["errors"].append(e)] *)
Definition append_error (e : SourceError) : M unit :=
  update_result (fun r =>
    {| containerd_images := containerd_images r;
       harbor_images := harbor_images r;
       errors := errors r ++ [e] |}).

(** [result["containerd_images"] = l] *)
Definition set_containerd_images (l : list ImageRecord) : M unit :=
  update_result (fun r =>
    {| containerd_images := l;
       harbor_images := harbor_images r;
       errors := errors r |}).

(** [result["harbor_images"] = l] *)
Definition set_harbor_images (l : list HarborImageRecord) : M unit :=
  update_result (fun r =>
    {| containerd_images := containerd_images r;
       harbor_images := l;
       errors := errors r |}).

Definition update_local (g : list HarborImageRecord -> list HarborImageRecord) : M unit :=
  fun f => (inr tt,
            {| result := result f;
               local_harbor_images := g (local_harbor_images f);
               sent := sent f |}).

Definition read_local : M (list HarborImageRecord) :=
  fun f => (inr (local_harbor_images f), f).

(** [for x in l: body x] *)
Fixpoint for_each {A} (l : list A) (body : A -> M unit) : M unit :=
  match l with
  | [] => ret tt
  | x :: l' => body x ;; for_each l' body
  end.

(** ** JSON rendering of the response ([jsonify])

    [jsonify] writes the members of every object sorted by key. *)

#[local] Unset Elimination Schemes.
Inductive json :=
| JStr (s : string)
| JArr (items : list json)
| JObj (members : list (string * json)).
#[local] Set Elimination Schemes.

Definition image_to_json (i : ImageRecord) : json :=
  JObj [("image_id", JStr (img_image_id i)); ("repository", JStr (img_repository i));
        ("size", JStr (img_size i)); ("tag", JStr (img_tag i))].

Definition harbor_image_to_json (h : HarborImageRecord) : json :=
  JObj [("digest", JStr (digest h)); ("project", JStr (project h));
        ("repository", JStr (repository h)); ("size", JStr (size h));
        ("tag", JStr (tag h))].

Definition error_to_json (e : SourceError) : json :=
  JObj (("error", JStr (error e))
        :: match err_repository e with
           | Some r => [("repository", JStr r)]
           | None => []
           end
        ++ [("source", JStr (source e))]).

Definition result_to_json (r : AggregateResult) : json :=
  JObj [("containerd_images", JArr (map image_to_json (containerd_images r)));
        ("errors", JArr (map error_to_json (errors r)));
        ("harbor_images", JArr (map harbor_image_to_json (harbor_images r)))].

(** What Flask sends for a view's return value. *)
Record Response := {
  status : nat;
  payload : AggregateResult;  (* the dict handed to [jsonify] *)
  body : json }.

Definition jsonify (r : AggregateResult) : Response :=
  {| status := 200; payload := r; body := result_to_json r |}.

Definition keys (j : json) : list string :=
  match j with
  | JObj members => map fst members
  | _ => []
  end.

(** ** [get_all_images] (image.py, lines 183-308)

    Logging calls are a side channel and are not modelled. *)

(** [bool(s)] for a [str] *)
Definition truthy (s : string) : bool := negb (String.eqb s EmptyString).

Definition api_root (harbor_cfg : HarborConfig) : string :=
  (PyStr.rstrip PyStr.slash (url harbor_cfg) ++ "/api/v2.0")%string.

Definition projects_url (harbor_cfg : HarborConfig) : string :=
  (api_root harbor_cfg ++ "/projects")%string.

Definition repos_url (harbor_cfg : HarborConfig) (project_name : string) : string :=
  (api_root harbor_cfg ++ "/projects/" ++ project_name ++ "/repositories")%string.

Definition artifacts_url (harbor_cfg : HarborConfig)
    (project_name encoded_repo_name : string) : string :=
  (api_root harbor_cfg ++ "/projects/" ++ project_name ++ "/repositories/"
     ++ encoded_repo_name ++ "/artifacts")%string.

Definition request (harbor_cfg : HarborConfig) (target : string)
    (params : list (string * string)) : Request :=
  {| req_url := target;
     req_auth := (user harbor_cfg, password harbor_cfg);
     req_params := params;
     req_verify_ssl := verify_ssl harbor_cfg |}.

(** Lines 203-227. *)
Definition containerd_branch (rt : Runtime) (cfg : AppSettings) : M unit :=
  try_except
    (process <- lift (crictl_images rt) ;;
     if (returncode process =? 0)%Z then
       (output <- lift (decode_utf8 rt (stdout process)) ;;
        ignored_ids <- lift (load_ignored_image_ids rt
                               (ignore_file_path (crictl_config cfg))) ;;
        images <- lift (parse_crictl_images_output rt output ignored_ids) ;;
        set_containerd_images images)
     else
       (decoded <- lift (decode_utf8 rt (stderr process)) ;;
        append_error
          {| source := "containerd";
             err_repository := None;
             error := ("Failed to execute crictl command: "
                         ++ strip rt decoded)%string |}))
    (fun e =>
       append_error
         {| source := "containerd"; err_repository := None; error := str e |}).

(** Line 280: [artifact['size'] = humanize.naturalsize(artifact['size'])];
    the subscript raises [KeyError] when the key is missing, and
    [naturalsize] raises on a value it cannot read. *)
Definition humanize_size (naturalsize : RawSize -> exn + string)
    (artifact : Artifact (option RawSize)) : exn + Artifact string :=
  match art_size artifact with
  | None => inl (KeyError "size")
  | Some raw =>
      match naturalsize raw with
      | inl e => inl e
      | inr text => inr {| art_digest := art_digest artifact;
                           art_size := text;
                           art_tags := art_tags artifact |}
      end
  end.

(** Lines 279-280, the first artifact loop: the artifacts in turn, up to
    the first one that raises. *)
Fixpoint humanize_each (naturalsize : RawSize -> exn + string)
    (artifacts : list (Artifact (option RawSize))) : exn + list (Artifact string) :=
  match artifacts with
  | [] => inr []
  | artifact :: rest =>
      match humanize_size naturalsize artifact with
      | inl e => inl e
      | inr humanized =>
          match humanize_each naturalsize rest with
          | inl e => inl e
          | inr others => inr (humanized :: others)
          end
      end
  end.

(** Line 283: ['tags' in artifact and artifact['tags']]. *)
Definition has_tags {S} (artifact : Artifact S) : bool :=
  match art_tags artifact with
  | TagsAbsent => false
  | TagsNull => false
  | TagsList [] => false
  | TagsList (_ :: _) => true
  end.

(** [artifact['tags']], where line 284 iterates it. *)
Definition tags_of {S} (artifact : Artifact S) : list Tag :=
  match art_tags artifact with
  | TagsList tags => tags
  | _ => []
  end.

(** Lines 283-291, the body of the second artifact loop. *)
Definition emit_artifact (full_repo_name project_name : string)
    (artifact : Artifact string) : M unit :=
  if has_tags artifact then
    for_each (tags_of artifact) (fun tag_ =>
      update_local (fun l =>
        l ++ [ {| repository := full_repo_name;
                  tag := tag_name tag_;
                  digest := art_digest artifact;
                  size := art_size artifact;
                  project := project_name |} ]))
  else ret tt.

(** Lines 253-291, the body of the repository loop. *)
Definition visit_repository (reg : Registry) (harbor_cfg : HarborConfig)
    (project_name : string) (repo : Repository) : M unit :=
  let full_repo_name := repo_name repo in
  let encoded_repo_name := encode_repository_name full_repo_name project_name in
  let artifacts_url := artifacts_url harbor_cfg project_name encoded_repo_name in
  fetched <-
    try_except
      (artifacts <- call (get_artifacts reg)
                         (request harbor_cfg artifacts_url []) ;;
       ret (Some artifacts))
      (fun e =>
         append_error
           {| source := "harbor";
              err_repository := Some full_repo_name;
              error := ("Failed to fetch artifacts: " ++ str e)%string |} ;;
         ret None) ;;
  match fetched with
  | None => ret tt  (* continue *)
  | Some artifacts =>
      artifacts <- lift (humanize_each (naturalsize reg) artifacts) ;;
      for_each artifacts (emit_artifact full_repo_name project_name)
  end.

(** Lines 244-291, the body of the project loop. *)
Definition visit_project (reg : Registry) (harbor_cfg : HarborConfig)
    (project_ : Project) : M unit :=
  let project_name := proj_name project_ in
  let repos_url := repos_url harbor_cfg project_name in
  repositories <- call (get_repositories reg)
                       (request harbor_cfg repos_url []) ;;
  for_each repositories (visit_repository reg harbor_cfg project_name).

(** Lines 230-306. *)
Definition harbor_branch (reg : Registry) (cfg : AppSettings) : M unit :=
  let harbor_cfg := harbor_config cfg in
  if forallb truthy [url harbor_cfg; user harbor_cfg; password harbor_cfg] then
    try_except
      (projects <- call (get_projects reg)
                        (request harbor_cfg (projects_url harbor_cfg)
                                 [("with_detail", "false")]) ;;
       update_local (fun _ => []) ;;
       for_each projects (visit_project reg harbor_cfg) ;;
       collected <- read_local ;;
       set_harbor_images collected)
      (fun e =>
         append_error
           {| source := "harbor"; err_repository := None; error := str e |})
  else
    append_error
      {| source := "harbor";
         err_repository := None;
         error := "Harbor configuration incomplete" |}.

Definition get_all_images (w : World) (cfg : AppSettings) : M Response :=
  containerd_branch (runtime w) cfg ;;
  harbor_branch (registry w) cfg ;;
  fun f => (inr (jsonify (result f)), f).

(** The frame at line 196. *)
Definition entry : Frame :=
  {| result := {| containerd_images := []; harbor_images := []; errors := [] |};
     local_harbor_images := [];
     sent := [] |}.

(** One [GET /images]: what the view returns (or raises) and the frame it
    leaves. *)
Definition serve (w : World) (cfg : AppSettings) : (exn + Response) * Frame :=
  get_all_images w cfg entry.

(** ** What a run is compared with

    Pure readings of the registry's answers, used to state what the
    handler leaves in the response. *)

Definition projects_request (harbor_cfg : HarborConfig) : Request :=
  request harbor_cfg (projects_url harbor_cfg) [("with_detail", "false")].

Definition repositories_request (harbor_cfg : HarborConfig) (p : Project) : Request :=
  request harbor_cfg (repos_url harbor_cfg (proj_name p)) [].

Definition artifacts_request (harbor_cfg : HarborConfig) (p : Project)
    (r : Repository) : Request :=
  request harbor_cfg
    (artifacts_url harbor_cfg (proj_name p)
       (encode_repository_name (repo_name r) (proj_name p))) [].

(** An artifact line 280 goes through: it has a ['size'] and
    [naturalsize] reads it. *)
Definition accepted (naturalsize : RawSize -> exn + string)
    (a : Artifact (option RawSize)) : Prop :=
  exists raw text, art_size a = Some raw /\ naturalsize raw = inr text.

(** The text line 280 stores under ['size'] for an artifact it accepts. *)
Definition size_text (naturalsize : RawSize -> exn + string)
    (a : Artifact (option RawSize)) : string :=
  match humanize_size naturalsize a with
  | inr humanized => art_size humanized
  | inl _ => "unknown"
  end.

(** The record of one (artifact, tag) pair. *)
Definition harbor_record (naturalsize : RawSize -> exn + string) (p : Project)
    (r : Repository) (a : Artifact (option RawSize)) (t : Tag) : HarborImageRecord :=
  {| repository := repo_name r;
     tag := tag_name t;
     digest := art_digest a;
     size := size_text naturalsize a;
     project := proj_name p |}.

(** One record per tag of one artifact. *)
Definition artifact_records (naturalsize : RawSize -> exn + string) (p : Project)
    (r : Repository) (a : Artifact (option RawSize)) : list HarborImageRecord :=
  map (harbor_record naturalsize p r a) (tags_of a).

(** The exception that leaves the visit of a repository: the one line 280
    raises on the first artifact it does not accept, when the artifacts
    are fetched. *)
Definition repository_stop (reg : Registry) (harbor_cfg : HarborConfig)
    (p : Project) (r : Repository) : option exn :=
  match get_artifacts reg (artifacts_request harbor_cfg p r) with
  | inr artifacts =>
      match humanize_each (naturalsize reg) artifacts with
      | inl e => Some e
      | inr _ => None
      end
  | inl _ => None
  end.

(** The records of a repository: those of its artifacts when they are
    fetched and all accepted, none otherwise. *)
Definition repository_records (reg : Registry) (harbor_cfg : HarborConfig)
    (p : Project) (r : Repository) : list HarborImageRecord :=
  match get_artifacts reg (artifacts_request harbor_cfg p r) with
  | inr artifacts =>
      match humanize_each (naturalsize reg) artifacts with
      | inr _ => flat_map (artifact_records (naturalsize reg) p r) artifacts
      | inl _ => []
      end
  | inl _ => []
  end.

(** The repository-scoped error entry of a failed artifact fetch. *)
Definition scoped_error (r : Repository) (e : exn) : SourceError :=
  {| source := "harbor";
     err_repository := Some (repo_name r);
     error := ("Failed to fetch artifacts: " ++ str e)%string |}.

Definition unscoped_error (src msg : string) : SourceError :=
  {| source := src; err_repository := None; error := msg |}.

Definition repository_errors (reg : Registry) (harbor_cfg : HarborConfig)
    (p : Project) (r : Repository) : list SourceError :=
  match get_artifacts reg (artifacts_request harbor_cfg p r) with
  | inr _ => []
  | inl e => [scoped_error r e]
  end.

(** The repositories listed under a project (none when the listing fails). *)
Definition repositories_of (reg : Registry) (harbor_cfg : HarborConfig)
    (p : Project) : list Repository :=
  match get_repositories reg (repositories_request harbor_cfg p) with
  | inr repositories => repositories
  | inl _ => []
  end.

(** A loop that an exception leaves: the items it reaches, in order (the
    one that raises included), and the exception. *)
Fixpoint scan {A} (stop : A -> option exn) (l : list A) : list A * option exn :=
  match l with
  | [] => ([], None)
  | x :: rest =>
      match stop x with
      | Some e => ([x], Some e)
      | None => let (visited, raised) := scan stop rest in (x :: visited, raised)
      end
  end.

(** The repositories of a project the walk visits, and the exception that
    leaves the repository loop, if an artifact is not accepted. *)
Definition visited_repositories (reg : Registry) (harbor_cfg : HarborConfig)
    (p : Project) : list Repository * option exn :=
  scan (repository_stop reg harbor_cfg p) (repositories_of reg harbor_cfg p).

Definition project_records (reg : Registry) (harbor_cfg : HarborConfig)
    (p : Project) : list HarborImageRecord :=
  flat_map (repository_records reg harbor_cfg p)
    (fst (visited_repositories reg harbor_cfg p)).

Definition project_errors (reg : Registry) (harbor_cfg : HarborConfig)
    (p : Project) : list SourceError :=
  flat_map (repository_errors reg harbor_cfg p)
    (fst (visited_repositories reg harbor_cfg p)).

Definition project_requests (reg : Registry) (harbor_cfg : HarborConfig)
    (p : Project) : list Request :=
  repositories_request harbor_cfg p
  :: map (artifacts_request harbor_cfg p)
       (fst (visited_repositories reg harbor_cfg p)).

(** The exception that leaves the visit of a project: the one of its
    repository listing, or the one of its repository loop. *)
Definition project_stop (reg : Registry) (harbor_cfg : HarborConfig)
    (p : Project) : option exn :=
  match get_repositories reg (repositories_request harbor_cfg p) with
  | inl e => Some e
  | inr _ => snd (visited_repositories reg harbor_cfg p)
  end.

(** The walk goes through a project: its repository listing succeeds and
    every artifact fetched from its repositories is accepted by line 280. *)
Definition passed (reg : Registry) (harbor_cfg : HarborConfig) (p : Project) : Prop :=
  exists repositories,
    get_repositories reg (repositories_request harbor_cfg p) = inr repositories
    /\ forall r artifacts,
         In r repositories ->
         get_artifacts reg (artifacts_request harbor_cfg p r) = inr artifacts ->
         Forall (accepted (naturalsize reg)) artifacts.

(** The projects the walk reaches, in order, and the exception that stops
    it, if any. *)
Definition reached (reg : Registry) (harbor_cfg : HarborConfig)
    (projects : list Project) : list Project * option exn :=
  scan (project_stop reg harbor_cfg) projects.

(** A frame after more errors, more collected records and more requests. *)
Definition advance (f : Frame) (errs : list SourceError)
    (records : list HarborImageRecord) (requests : list Request) : Frame :=
  {| result := {| containerd_images := containerd_images (result f);
                  harbor_images := harbor_images (result f);
                  errors := errors (result f) ++ errs |};
     local_harbor_images := local_harbor_images f ++ records;
     sent := sent f ++ requests |}.

(** The test of line 231. *)
Definition configured (cfg : AppSettings) : bool :=
  truthy (url (harbor_config cfg))
  && truthy (user (harbor_config cfg))
  && truthy (password (harbor_config cfg)).

(** The frame the harbor branch leaves, read off the registry's answers. *)
Definition after_harbor (reg : Registry) (cfg : AppSettings) (f : Frame) : Frame :=
  let harbor_cfg := harbor_config cfg in
  if configured cfg then
    match get_projects reg (projects_request harbor_cfg) with
    | inl e => advance f [unscoped_error "harbor" (str e)] [] [projects_request harbor_cfg]
    | inr projects =>
        let visited := fst (reached reg harbor_cfg projects) in
        let errs := flat_map (project_errors reg harbor_cfg) visited in
        let records := flat_map (project_records reg harbor_cfg) visited in
        let requests :=
          projects_request harbor_cfg
          :: flat_map (project_requests reg harbor_cfg) visited in
        match snd (reached reg harbor_cfg projects) with
        | Some e =>
            {| result :=
                 {| containerd_images := containerd_images (result f);
                    harbor_images := harbor_images (result f);
                    errors := errors (result f) ++ errs
                              ++ [unscoped_error "harbor" (str e)] |};
               local_harbor_images := records;
               sent := sent f ++ requests |}
        | None =>
            {| result :=
                 {| containerd_images := containerd_images (result f);
                    harbor_images := records;
                    errors := errors (result f) ++ errs |};
               local_harbor_images := records;
               sent := sent f ++ requests |}
        end
    end
  else advance f [unscoped_error "harbor" "Harbor configuration incomplete"] [] [].

(** Each branch run on its own, from the entry frame. *)
Definition containerd_alone (rt : Runtime) (cfg : AppSettings) : AggregateResult :=
  result (snd (containerd_branch rt cfg entry)).

Definition harbor_alone (reg : Registry) (cfg : AppSettings) : AggregateResult :=
  result (snd (harbor_branch reg cfg entry)).

(** The response of one [GET /images]: what the view returns, or Flask's
    500 for an exception that leaves the view. *)
Definition response (w : World) (cfg : AppSettings) : Response :=
  match fst (serve w cfg) with
  | inr r => r
  | inl _ => {| status := 500; payload := result entry; body := JObj [] |}
  end.


(** Line 280 goes through this artifact. *)
Definition accepts (naturalsize : RawSize -> exn + string)
    (a : Artifact (option RawSize)) : bool :=
  match humanize_size naturalsize a with
  | inr _ => true
  | inl _ => false
  end.

(** The registry with every artifact that carries no tag (no ['tags'] key,
    [null], or an empty list) and that line 280 accepts removed from the
    artifact listings. *)
Definition without_untagged (reg : Registry) : Registry :=
  {| get_projects := get_projects reg;
     get_repositories := get_repositories reg;
     get_artifacts := fun rq =>
       match get_artifacts reg rq with
       | inr artifacts =>
           inr (filter (fun a => has_tags a || negb (accepts (naturalsize reg) a))
                  artifacts)
       | inl e => inl e
       end;
     naturalsize := naturalsize reg |}.

(** Every (project, repository) pair of a project list, in walk order. *)
Definition repositories_under (reg : Registry) (harbor_cfg : HarborConfig)
    (projects : list Project) : list (Project * Repository) :=
  flat_map (fun p => map (pair p) (repositories_of reg harbor_cfg p)) projects.

Definition is_harbor (e : SourceError) : bool := String.eqb (source e) "harbor".

Definition is_unscoped (e : SourceError) : bool :=
  match err_repository e with
  | None => true
  | Some _ => false
  end.

Definition unscoped_harbor (e : SourceError) : bool := is_harbor e && is_unscoped e.

(** ** Concrete registries and runtimes *)

Module Scenario.

Definition cfg : AppSettings :=
  {| crictl_config := {| ignore_file_path := "images_to_ignore.txt" |};
     harbor_config := {| url := "https://harbor.local/";
                         user := "admin";
                         password := "secret";
                         verify_ssl := true |} |}.

(** The same settings with no password. *)
Definition cfg_no_password : AppSettings :=
  {| crictl_config := crictl_config cfg;
     harbor_config := {| url := "https://harbor.local/";
                         user := "admin";
                         password := EmptyString;
                         verify_ssl := true |} |}.

(** [crictl] exits with status 1. *)
Definition failing_runtime : Runtime :=
  {| crictl_images := inr {| returncode := 1; stdout := []; stderr := [] |};
     decode_utf8 := fun _ => inr "permission denied";
     strip := fun s => s;
     load_ignored_image_ids := fun _ => inr [];
     parse_crictl_images_output := fun _ _ => inr [] |}.

(** [crictl] succeeds and one image is parsed. *)
Definition pause : ImageRecord :=
  {| img_repository := "registry.k8s.io/pause";
     img_tag := "3.9";
     img_image_id := "e6f181688397";
     img_size := "322 kB" |}.

Definition healthy_runtime : Runtime :=
  {| crictl_images := inr {| returncode := 0; stdout := []; stderr := [] |};
     decode_utf8 := fun _ => inr "IMAGE TAG IMAGE ID SIZE";
     strip := fun s => s;
     load_ignored_image_ids := fun _ => inr [];
     parse_crictl_images_output := fun _ _ => inr [pause] |}.

Definition library : Project := {| proj_name := "library" |}.
Definition nvcr : Project := {| proj_name := "nvcr.io" |}.

Definition nginx : Repository := {| repo_name := "library/nginx" |}.
Definition redis : Repository := {| repo_name := "library/redis" |}.
Definition pytorch : Repository := {| repo_name := "nvcr.io/nvidia/pytorch" |}.

Definition artifact (d t : string) (bytes : Z) : Artifact (option RawSize) :=
  {| art_digest := d;
     art_size := Some (RInt bytes);
     art_tags := TagsList [ {| tag_name := t |} ] |}.

(** Five artifacts, each tagged once. *)
Definition five : list (Artifact (option RawSize)) :=
  [artifact "sha256:01" "v1" 1000; artifact "sha256:02" "v2" 2000;
   artifact "sha256:03" "v3" 3000; artifact "sha256:04" "v4" 4000;
   artifact "sha256:05" "v5" 5000].

Definition units (raw : RawSize) : exn + string :=
  match raw with
  | RInt bytes => inr (if (bytes <? 3000)%Z then "small" else "large")
  | _ => inl (Exception "float() argument must be a string or a real number")
  end.

Definition root : string := "https://harbor.local/api/v2.0/projects".

Definition list_projects (rq : Request) : exn + list Project :=
  if String.eqb (req_url rq) root then inr [library; nvcr]
  else inl (Exception "404").

Definition list_repositories (rq : Request) : exn + list Repository :=
  if String.eqb (req_url rq) (root ++ "/library/repositories")%string
  then inr [nginx; redis]
  else if String.eqb (req_url rq) (root ++ "/nvcr.io/repositories")%string
  then inr [pytorch]
  else inl (Exception "404").

Definition list_artifacts (rq : Request) : exn + list (Artifact (option RawSize)) :=
  if String.eqb (req_url rq)
       (root ++ "/library/repositories/nginx/artifacts")%string
     || String.eqb (req_url rq)
          (root ++ "/library/repositories/redis/artifacts")%string
     || String.eqb (req_url rq)
          (root ++ "/nvcr.io/repositories/nvidia%252Fpytorch/artifacts")%string
  then inr five
  else inl (Exception "404").

(** Two projects, three repositories, five single-tag artifacts each. *)
Definition healthy : Registry :=
  {| get_projects := list_projects;
     get_repositories := list_repositories;
     get_artifacts := list_artifacts;
     naturalsize := units |}.

(** As [healthy], but the repository listing of [nvcr.io] times out. *)
Definition listing_times_out : Registry :=
  {| get_projects := list_projects;
     get_repositories := fun rq =>
       if String.eqb (req_url rq) (root ++ "/nvcr.io/repositories")%string
       then inl (Exception "read timed out")
       else list_repositories rq;
     get_artifacts := list_artifacts;
     naturalsize := units |}.

(** As [healthy], but the artifacts of [library/redis] cannot be fetched. *)
Definition redis_unreachable : Registry :=
  {| get_projects := list_projects;
     get_repositories := list_repositories;
     get_artifacts := fun rq =>
       if String.eqb (req_url rq)
            (root ++ "/library/repositories/redis/artifacts")%string
       then inl (Exception "502 Bad Gateway")
       else list_artifacts rq;
     naturalsize := units |}.





Definition all_well : World :=
  {| runtime := healthy_runtime; registry := healthy |}.

(** The runtime fails, the registry is healthy. *)
Definition crictl_down : World :=
  {| runtime := failing_runtime; registry := healthy |}.

Definition nvcr_listing_down : World :=
  {| runtime := healthy_runtime; registry := listing_times_out |}.

Definition redis_down : World :=
  {| runtime := healthy_runtime; registry := redis_unreachable |}.



End Scenario.

(** ** The paginated registry client *)

Module Pagination.

(** The answer to one page request: the page's items and the total
    count the registry reports, when it reports one. *)
Record Page (A : Type) := {
  items : list A;
  total : option nat }.
Arguments items {A}.
Arguments total {A}.

Section Client.

Context {A : Type}.

(** [GET url?page=k&page_size=P], with the credentials and the TLS
    toggle of the call; a failed request raises. *)
Variable get_page : nat -> exn + Page A.
Variable page_size : nat.

(** Modelled from the spec: the stopping test of the client's loop (the
    function is absent from the sources): the accumulated count reaches
    the reported total, or the page is short. *)
Definition exhausted (results : list A) (reply : Page A) : bool :=
  match total reply with
  | Some n => Nat.leb n (List.length results)
  | None => false
  end
  || Nat.ltb (List.length (items reply)) page_size.

(** Modelled from the spec: the client's loop (absent from the sources).
    Pages [page], [page + 1], ... are requested in turn; [asked] logs
    the page numbers requested.  [None] stands for a loop that has
    not stopped within [fuel] requests. *)
Fixpoint fetch_from (fuel page : nat) (results : list A) (asked : list nat)
  : option (exn + list A) * list nat :=
  match fuel with
  | O => (None, asked)
  | S fuel' =>
      match get_page page with
      | inl e => (Some (inl e), asked ++ [page])
      | inr reply =>
          let results := results ++ items reply in
          if exhausted results reply
          then (Some (inr results), asked ++ [page])
          else fetch_from fuel' (S page) results (asked ++ [page])
      end
  end.

(** Modelled from the spec: [get_harbor_paginated_results] lives in
    [harbor_image_api.py], which is not among the sources; this follows
    section 4.3 (sequential requests from page 1, stop when the
    accumulated count reaches the reported total or a page is short,
    fail as a whole when a request fails). *)
Definition get_harbor_paginated_results (fuel : nat)
  : option (exn + list A) * list nat :=
  fetch_from fuel 1 [] [].

End Client.

(** Modelled from the spec: the registry's side of the pagination
    protocol (an external collaborator), serving [collection] page by
    page and reporting the total or not. *)
Definition serve_page {A} (collection : list A) (report_total : bool)
    (page_size page : nat) : exn + Page A :=
  inr {| items := firstn page_size (skipn ((page - 1) * page_size) collection);
         total := if report_total then Some (List.length collection) else None |}.

Definition ceil_div (n p : nat) : nat := (n + p - 1) / p.

(** The number of requests a served collection of [n] items costs. *)
Definition requests_needed (n page_size : nat) (report_total : bool) : nat :=
  if report_total then Nat.max 1 (ceil_div n page_size) else n / page_size + 1.

End Pagination.

(** ** Further vocabulary for the response and the settings *)

Definition percent : ascii := "%"%char.

Definition is_containerd (e : SourceError) : bool := String.eqb (source e) "containerd".

(** The settings with another registry URL. *)
Definition with_url (cfg : AppSettings) (u : string) : AppSettings :=
  {| crictl_config := crictl_config cfg;
     harbor_config := {| url := u;
                         user := user (harbor_config cfg);
                         password := password (harbor_config cfg);
                         verify_ssl := verify_ssl (harbor_config cfg) |} |}.

(** A repository-scoped entry of the harbor branch. *)
Definition scoped_harbor_entry (e : SourceError) : Prop :=
  source e = "harbor" /\ exists repo, err_repository e = Some repo.

(** What follows the first ['/'] of a name, or the name itself when it has
    none. *)
Definition after_first_slash (s : string) : string :=
  let parts := PyStr.split1 PyStr.slash s in
  if Nat.ltb 1 (List.length parts) then nth 1 parts EmptyString else s.

(** ** [load_config] (image.py, lines 111-132)

    The configuration is a dict of section dicts.  [defaults.copy()] is a
    shallow copy: the copy holds the same section objects as [defaults],
    so the sections live in a heap and the top-level dicts map a section
    name to a reference.  Logging calls are not modelled. *)

Module Config.

(** A Python dict with [str] keys, in insertion order. *)
Definition Dict (V : Type) : Type := list (string * V).

(** [d[k]], with [None] for [KeyError]; also [k in d]. *)
Fixpoint get {V} (k : string) (d : Dict V) : option V :=
  match d with
  | [] => None
  | (k', v) :: d' => if String.eqb k k' then Some v else get k d'
  end.

(** [d[k] = v] *)
Fixpoint set {V} (k : string) (v : V) (d : Dict V) : Dict V :=
  match d with
  | [] => [(k, v)]
  | (k', v') :: d' =>
      if String.eqb k k' then (k, v) :: d' else (k', v') :: set k v d'
  end.

(** [d.update(other)] *)
Definition update {V} (d other : Dict V) : Dict V :=
  fold_left (fun acc kv => set (fst kv) (snd kv) acc) other d.

Definition Ref : Type := nat.

Definition Heap (V : Type) : Type := Ref -> Dict V.

(** The heap after the dict at [l] has become [d]. *)
Definition write {V} (h : Heap V) (l : Ref) (d : Dict V) : Heap V :=
  fun l' => if Nat.eqb l' l then d else h l'.

(** The list of line 126. *)
Definition sections : list string := ["crictl_config"; "harbor_config"; "app_config"].

(** A member of the file, as [dict.update] takes it at line 128:
    [update] sets the pairs of [applied], in order, and then raises
    [failure], if any.  A JSON object has [applied] its members and no
    failure; [null], a number or a Boolean has no pair and a [TypeError];
    an array or a string is read as a sequence of pairs, up to the first
    element that is not one. *)
Record Member (V : Type) := {
  applied : Dict V;
  failure : option exn }.
Arguments applied {V}.
Arguments failure {V}.

Definition object {V} (d : Dict V) : Member V :=
  {| applied := d; failure := None |}.

(** A member [dict.update] rejects at once, such as [null]. *)
Definition rejected {V} (e : exn) : Member V :=
  {| applied := []; failure := Some e |}.

Section Load.

Context {V : Type}.

(** [open(filepath)] followed by [json.load]: the members of the parsed
    file, or the exception either raises.  [inl] also stands for a file
    whose top level is not a JSON object: lines 126-128 then change
    nothing before the exception, if any, is caught. *)
Variable read_json : string -> exn + Dict (Member V).

(** Lines 126-128, run over [names]: the exception that ends the loop, if
    any, and the heap left. *)
Fixpoint merge (names : list string) (file_config : Dict (Member V))
    (config : Dict Ref) (h : Heap V) : option exn * Heap V :=
  match names with
  | [] => (None, h)
  | section :: rest =>
      match get section file_config with
      | None => merge rest file_config config h
      | Some member =>
          match get section config with
          | None => (Some (KeyError section), h)
          | Some l =>
              let h' := write h l (update (h l) (applied member)) in
              match failure member with
              | Some e => (Some e, h')
              | None => merge rest file_config config h'
              end
          end
      end
  end.

(** The returned dict and the heap left.  Every exception is caught at
    line 130, so the function always returns [config]. *)
Definition load_config (defaults : Dict Ref) (filepath : string) (h : Heap V)
  : Dict Ref * Heap V :=
  let config := defaults in  (* defaults.copy(): same section objects *)
  match read_json filepath with
  | inl _ => (config, h)
  | inr file_config => (config, snd (merge sections file_config config h))
  end.

End Load.

(** The merge over [names] gets to [section]: [dict.update] accepts the
    member of every section listed before it. *)
Fixpoint gets_to {V} (names : list string) (file_config : Dict (Member V))
    (section : string) : bool :=
  match names with
  | [] => false
  | name :: rest =>
      if String.eqb name section then true
      else match get name file_config with
           | Some member =>
               match failure member with
               | Some _ => false
               | None => gets_to rest file_config section
               end
           | None => gets_to rest file_config section
           end
  end.

(** What a section's dict becomes when the file is merged into it. *)
Definition merged {V} (file_config : Dict (Member V)) (h : Heap V)
    (names : list string) (section : string) (l : Ref) : Dict V :=
  if gets_to names file_config section then
    match get section file_config with
    | Some member => update (h l) (applied member)
    | None => h l
    end
  else h l.

(** The file with the members that are not one of the three sections
    removed. *)
Definition known_sections_only {V} (file_config : Dict (Member V))
  : Dict (Member V) :=
  filter (fun kv => existsb (String.eqb (fst kv)) sections) file_config.

(** A setting's value. *)
Inductive Setting :=
| SStr (s : string)
| SInt (z : Z)
| SBool (b : bool)
| SNull.

(** [DEFAULT_CONFIG] (lines 36-59): three sections, three objects. *)
Definition DEFAULT_CONFIG : Dict Ref :=
  [("crictl_config", 0); ("harbor_config", 1); ("app_config", 2)].

Definition default_sections : Heap Setting :=
  fun l =>
    match l with
    | 0 => [("ignore_file_path", SStr "images_to_ignore.txt")]
    | 1 => [("url", SStr EmptyString); ("user", SStr EmptyString);
            ("password", SStr EmptyString); ("project_name", SStr EmptyString);
            ("page_size", SInt 100); ("verify_ssl", SBool true)]
    | 2 => [("host", SStr "0.0.0.0"); ("port", SInt 5000); ("debug", SBool false);
            ("jsonify_prettyprint_regular", SBool true);
            ("log_file", SStr "image_api.log"); ("log_max_bytes", SInt 10485760);
            ("log_backup_count", SInt 3); ("log_level_app", SStr "WARNING");
            ("log_level_file_handler", SStr "WARNING")]
    | _ => []
    end.

(** [CONFIG_FILE_PATH] *)
Definition CONFIG_FILE_PATH : string := "config.json".

(** The settings [get_all_images] reads from [app.config['APP_SETTINGS']]
    (lines 213 and 230-239), when they have the types the handler uses
    them at. *)
Definition app_settings (config : Dict Ref) (h : Heap Setting) : option AppSettings :=
  match get "crictl_config" config, get "harbor_config" config with
  | Some c, Some hb =>
      match get "ignore_file_path" (h c), get "url" (h hb), get "user" (h hb),
            get "password" (h hb), get "verify_ssl" (h hb) with
      | Some (SStr path), Some (SStr u), Some (SStr usr), Some (SStr pwd),
        Some (SBool verify) =>
          Some {| crictl_config := {| ignore_file_path := path |};
                  harbor_config := {| url := u; user := usr; password := pwd;
                                      verify_ssl := verify |} |}
      | _, _, _, _, _ => None
      end
  | _, _ => None
  end.

(** Lines 177-179: the settings the module installs at import time. *)
Definition installed_settings (read_json : string -> exn + Dict (Member Setting))
  : option AppSettings :=
  let (config, h) := load_config read_json DEFAULT_CONFIG CONFIG_FILE_PATH
                       default_sections in
  app_settings config h.

(** Sample files. *)
Definition harbor_file : Dict (Member Setting) :=
  [("harbor_config", object [("url", SStr "https://harbor.local/");
                             ("user", SStr "admin");
                             ("password", SStr "secret");
                             ("robot", SBool true)]);
   ("notes", object [("owner", SStr "ops")])].

(** [{"harbor_config": null, "app_config": {"port": 6000}}] *)
Definition null_harbor_file : Dict (Member Setting) :=
  [("harbor_config",
    rejected (Exception "'NoneType' object is not iterable"));
   ("app_config", object [("port", SInt 6000)])].

Definition reads (file_config : Dict (Member Setting)) (path : string)
  : exn + Dict (Member Setting) :=
  if String.eqb path CONFIG_FILE_PATH then inr file_config
  else inl (Exception "No such file or directory").

Definition missing_file (path : string) : exn + Dict (Member Setting) :=
  inl (Exception "No such file or directory").

(** Defaults without a [crictl_config] section, and a file that names it. *)
Definition two_sections : Dict Ref := [("harbor_config", 1); ("app_config", 2)].

Definition crictl_and_harbor_file : Dict (Member Setting) :=
  [("crictl_config", object [("ignore_file_path", SStr "ignore.txt")]);
   ("harbor_config", object [("url", SStr "https://harbor.local/")])].

End Config.

(** ** [setup_logging] (image.py, lines 63-108)

    The root logger and the Flask logger each hold a list of handler
    objects and a numeric level.  A handler object is known by its
    position in the list of the handlers created so far.  The record
    emitted at line 108 is not modelled. *)

Module Logging.

Record Logger := {
  handlers : list nat;
  level : Z }.

Record Handler := {
  filename : string;
  maxBytes : Z;
  backupCount : Z;
  formatter : option string;
  handler_level : Z }.

Record Loggers := {
  root_logger : Logger;   (* logging.getLogger() *)
  app_logger : Logger;    (* app.logger *)
  created : list Handler  (* every handler object, by identity *) }.

(** The [app_config] settings the function reads. *)
Record LogSettings := {
  log_file : string;
  log_max_bytes : Z;
  log_backup_count : Z;
  log_level_app : string;
  log_level_file_handler : string }.

(** [list.remove(x)] behind the [in] test of [Logger.removeHandler]. *)
Fixpoint remove_first (x : nat) (l : list nat) : list nat :=
  match l with
  | [] => []
  | y :: l' => if Nat.eqb x y then l' else y :: remove_first x l'
  end.

(** [for handler in logger.handlers[:]: logger.removeHandler(handler)] *)
Definition remove_all_handlers (lg : Logger) : Logger :=
  {| handlers := fold_left (fun acc x => remove_first x acc) (handlers lg) (handlers lg);
     level := level lg |}.

(** [logger.addHandler(h)]: appended unless already there. *)
Definition addHandler (h : nat) (lg : Logger) : Logger :=
  {| handlers := if existsb (Nat.eqb h) (handlers lg) then handlers lg
                 else handlers lg ++ [h];
     level := level lg |}.

(** The level names [setLevel] accepts, with their numbers. *)
Definition check_level (name : string) : exn + Z :=
  if String.eqb name "CRITICAL" then inr 50%Z
  else if String.eqb name "FATAL" then inr 50%Z
  else if String.eqb name "ERROR" then inr 40%Z
  else if String.eqb name "WARN" then inr 30%Z
  else if String.eqb name "WARNING" then inr 30%Z
  else if String.eqb name "INFO" then inr 20%Z
  else if String.eqb name "DEBUG" then inr 10%Z
  else if String.eqb name "NOTSET" then inr 0%Z
  else inl (Exception ("Unknown level: '" ++ name ++ "'")%string).

Definition log_format : string :=
  "%(asctime)s %(levelname)s [%(name)s]: %(message)s [in %(pathname)s:%(lineno)d]".

Definition set_level (n : Z) (lg : Logger) : Logger :=
  {| handlers := handlers lg; level := n |}.

(** [open_log] stands for the opening of the log file by the
    [RotatingFileHandler] constructor, which may raise. *)
Definition setup_logging (open_log : string -> exn + unit) (config : LogSettings)
    (st : Loggers) : (exn + unit) * Loggers :=
  (* lines 76-77 *)
  let root1 := remove_all_handlers (root_logger st) in
  let st1 := {| root_logger := root1; app_logger := app_logger st; created := created st |} in
  (* lines 80-84 *)
  match open_log (log_file config) with
  | inl e => (inl e, st1)
  | inr _ =>
      let file_handler := List.length (created st) in
      let fresh := {| filename := log_file config;
                      maxBytes := log_max_bytes config;
                      backupCount := log_backup_count config;
                      formatter := None;
                      handler_level := 0 |} in
      (* lines 87-91 *)
      let formatted := {| filename := filename fresh;
                          maxBytes := maxBytes fresh;
                          backupCount := backupCount fresh;
                          formatter := Some log_format;
                          handler_level := handler_level fresh |} in
      (* line 92 *)
      match check_level (log_level_file_handler config) with
      | inl e =>
          (inl e, {| root_logger := root1;
                     app_logger := app_logger st;
                     created := created st ++ [formatted] |})
      | inr handler_lvl =>
          let levelled := {| filename := filename formatted;
                             maxBytes := maxBytes formatted;
                             backupCount := backupCount formatted;
                             formatter := formatter formatted;
                             handler_level := handler_lvl |} in
          let objects := created st ++ [levelled] in
          (* line 95 *)
          let root2 := addHandler file_handler root1 in
          (* line 96 *)
          match check_level (log_level_app config) with
          | inl e =>
              (inl e, {| root_logger := root2;
                         app_logger := app_logger st;
                         created := objects |})
          | inr app_lvl =>
              let root3 := set_level app_lvl root2 in
              (* lines 99-104 *)
              let app1 := remove_all_handlers (app_logger st) in
              let app2 := addHandler file_handler app1 in
              match check_level (log_level_app config) with
              | inl e =>
                  (inl e, {| root_logger := root3; app_logger := app2;
                             created := objects |})
              | inr app_lvl' =>
                  (inr tt, {| root_logger := root3;
                              app_logger := set_level app_lvl' app2;
                              created := objects |})
              end
          end
      end
  end.

(** Loggers as a process may have them before the call. *)
Definition busy : Loggers :=
  {| root_logger := {| handlers := [0; 1; 0]; level := 30 |};
     app_logger := {| handlers := [1]; level := 0 |};
     created := [ {| filename := "old.log"; maxBytes := 0; backupCount := 0;
                     formatter := None; handler_level := 0 |};
                  {| filename := "console"; maxBytes := 0; backupCount := 0;
                     formatter := None; handler_level := 10 |} ] |}.

Definition defaults : LogSettings :=
  {| log_file := "image_api.log";
     log_max_bytes := 10485760;
     log_backup_count := 3;
     log_level_app := "WARNING";
     log_level_file_handler := "WARNING" |}.

Definition verbose_typo : LogSettings :=
  {| log_file := "image_api.log";
     log_max_bytes := 10485760;
     log_backup_count := 3;
     log_level_app := "VERBOSE";
     log_level_file_handler := "WARNING" |}.

Definition writable (path : string) : exn + unit := inr tt.

Definition read_only (path : string) : exn + unit :=
  inl (Exception "Permission denied").

End Logging.

(** * Properties *)

(** ** Strings *)

Module PyStrFacts.
Import PyStr.

Lemma startswith_app (p r : string) : startswith (p ++ r)%string p = true.
Proof.
  unfold startswith. induction p as [|c p IH]; simpl.
  - now destruct r.
  - destruct (ascii_dec c c) as [_|ne]; [exact IH | now elim ne].
Qed.

Lemma startswith_inv (s p : string) :
  startswith s p = true -> exists r, s = (p ++ r)%string.
Proof.
  unfold startswith. revert s. induction p as [|c p IH]; intros s H.
  - now exists s.
  - destruct s as [|d s]; simpl in H; [discriminate|].
    destruct (ascii_dec c d) as [->|]; [|discriminate].
    destruct (IH _ H) as [r ->]. now exists r.
Qed.

Lemma slice_from_app (p r : string) :
  slice_from (String.length p) (p ++ r)%string = r.
Proof. induction p; simpl; [now destruct r | assumption]. Qed.

Lemma length_app (a b : string) :
  String.length (a ++ b)%string = String.length a + String.length b.
Proof. induction a; simpl; congruence. Qed.

Lemma append_assoc (a b c : string) :
  (a ++ (b ++ c))%string = ((a ++ b) ++ c)%string.
Proof. induction a; simpl; congruence. Qed.

Lemma contains_app (c : ascii) (a b : string) :
  contains c (a ++ b)%string = contains c a || contains c b.
Proof.
  induction a as [|x a IH]; simpl; [reflexivity|].
  now rewrite IH, orb_assoc.
Qed.

Lemma split1_none (sep : ascii) (s : string) :
  contains sep s = false -> split1 sep s = [s].
Proof.
  induction s as [|c s IH]; simpl; intros H; [reflexivity|].
  apply orb_false_iff in H as [Hc Hs].
  rewrite Hc, (IH Hs). reflexivity.
Qed.

Lemma split1_first (sep : ascii) (a b : string) :
  contains sep a = false ->
  split1 sep (a ++ String sep b)%string = [a; b].
Proof.
  induction a as [|c a IH]; simpl; intros H.
  - now rewrite Ascii.eqb_refl.
  - apply orb_false_iff in H as [Hc Ha].
    rewrite Hc, (IH Ha). reflexivity.
Qed.

Lemma replace_none (old : ascii) (new s : string) :
  contains old s = false -> replace old new s = s.
Proof.
  induction s as [|c s IH]; simpl; intros H; [reflexivity|].
  apply orb_false_iff in H as [Hc Hs].
  now rewrite Hc, (IH Hs).
Qed.

Lemma replace_app (old : ascii) (new a b : string) :
  replace old new (a ++ b)%string
  = (replace old new a ++ replace old new b)%string.
Proof.
  induction a as [|c a IH]; simpl; [reflexivity|].
  destruct (Ascii.eqb c old); rewrite IH; [|reflexivity].
  apply append_assoc.
Qed.

Lemma replace_clean (old : ascii) (new s : string) :
  contains old new = false -> contains old (replace old new s) = false.
Proof.
  intros Hnew. induction s as [|c s IH]; simpl; [reflexivity|].
  destruct (Ascii.eqb c old) eqn:E.
  - now rewrite contains_app, Hnew, IH.
  - simpl. now rewrite E, IH.
Qed.

Lemma contains_prefix_slash (s p : string) :
  contains slash s = false -> startswith s (p ++ "/")%string = false.
Proof.
  intros H. destruct (startswith s (p ++ "/")%string) eqn:E; [|reflexivity].
  apply startswith_inv in E as [r ->].
  rewrite !contains_app in H. simpl in H.
  now rewrite orb_true_r in H.
Qed.

End PyStrFacts.

(** ** The repository-name encoder *)

Lemma encode_no_slash (s project_name : string) :
  PyStr.contains PyStr.slash s = false ->
  encode_repository_name s project_name = s.
Proof.
  intros H. unfold encode_repository_name.
  rewrite (PyStrFacts.contains_prefix_slash _ project_name H).
  rewrite (PyStrFacts.split1_none _ _ H). simpl.
  now apply PyStrFacts.replace_none.
Qed.

Lemma encode_output_clean (full_repo_name project_name : string) :
  PyStr.contains PyStr.slash
    (encode_repository_name full_repo_name project_name) = false.
Proof.
  unfold encode_repository_name. now apply PyStrFacts.replace_clean.
Qed.

(** C1: [encode_repository_name] strips the leading [project/] prefix when
    the name has it; otherwise it keeps what follows the first ['/'], or
    the whole name when there is no ['/']; every ['/'] that remains is
    then replaced by [%252F] (the replacement is the character-wise
    homomorphism sending ['/'] to [%252F] and fixing every other
    character).  The two documented examples evaluate as stated. *)
Theorem encode_repository_name_spec (full_repo_name project_name : string) :
  let enc := PyStr.replace PyStr.slash "%252F" in
  (forall rest,
      full_repo_name = (project_name ++ "/" ++ rest)%string ->
      encode_repository_name full_repo_name project_name = enc rest)
  /\ ((forall rest, full_repo_name <> (project_name ++ "/" ++ rest)%string) ->
      forall before after,
        full_repo_name = (before ++ "/" ++ after)%string ->
        PyStr.contains PyStr.slash before = false ->
        encode_repository_name full_repo_name project_name = enc after)
  /\ (PyStr.contains PyStr.slash full_repo_name = false ->
      encode_repository_name full_repo_name project_name = full_repo_name)
  /\ (forall a b, enc (a ++ b)%string = (enc a ++ enc b)%string)
  /\ enc "/" = "%252F"
  /\ (forall c, c <> PyStr.slash -> enc (String c EmptyString) = String c EmptyString)
  /\ encode_repository_name "nvcr.io/nvidia/pytorch" "nvcr.io" = "nvidia%252Fpytorch"
  /\ encode_repository_name "custom/my-image" "custom" = "my-image".
Proof.
  intros enc. repeat split.
  - intros rest ->. unfold encode_repository_name.
    rewrite PyStrFacts.append_assoc, PyStrFacts.startswith_app.
    replace (String.length project_name + 1)
      with (String.length (project_name ++ "/")%string)
      by (rewrite PyStrFacts.length_app; reflexivity).
    now rewrite PyStrFacts.slice_from_app.
  - intros Hno before after -> Hbefore. unfold encode_repository_name.
    destruct (PyStr.startswith _ _) eqn:E.
    + apply PyStrFacts.startswith_inv in E as [r E].
      elim (Hno r). now rewrite E, PyStrFacts.append_assoc.
    + change ("/" ++ after)%string with (String PyStr.slash after).
      now rewrite (PyStrFacts.split1_first _ _ _ Hbefore).
  - apply encode_no_slash.
  - apply PyStrFacts.replace_app.
  - intros c Hc. unfold enc. simpl.
    destruct (Ascii.eqb_spec c PyStr.slash); [contradiction | reflexivity].
Qed.

Lemma encode_repository_name_spec_witness :
  encode_repository_name "other/a/b" "custom" = "a%252Fb".
Proof.
  destruct (encode_repository_name_spec "other/a/b" "custom") as (_ & H & _).
  apply (H (fun rest E => ltac:(discriminate E)) "other" "a/b");
    reflexivity.
Defined.

(** C9: the encoder's output holds no ['/'], hence encoding it again
    (under the same project) changes nothing. *)
Theorem encode_repository_name_idempotent (full_repo_name project_name : string) :
  PyStr.contains PyStr.slash
    (encode_repository_name full_repo_name project_name) = false
  /\ encode_repository_name
       (encode_repository_name full_repo_name project_name) project_name
     = encode_repository_name full_repo_name project_name.
Proof.
  split; [apply encode_output_clean|].
  apply encode_no_slash, encode_output_clean.
Qed.

(** ** Frames and loops *)

Lemma advance_nil (f : Frame) : advance f [] [] [] = f.
Proof.
  destruct f as [[c h e] l s]. unfold advance. simpl.
  now rewrite !app_nil_r.
Qed.

Lemma advance_advance (f : Frame) e1 i1 r1 e2 i2 r2 :
  advance (advance f e1 i1 r1) e2 i2 r2
  = advance f (e1 ++ e2) (i1 ++ i2) (r1 ++ r2).
Proof. unfold advance. simpl. now rewrite !app_assoc. Qed.

Ltac run_step :=
  unfold bind, ret, call, lift, try_except, append_error, update_result,
    update_local, read_local, set_harbor_images, set_containerd_images;
  simpl.

Lemma for_each_cons {A} (x : A) (l : list A) (body : A -> M unit) (f : Frame) :
  for_each (x :: l) body f
  = match body x f with
    | (inr _, f') => for_each l body f'
    | (inl e, f') => (inl e, f')
    end.
Proof. reflexivity. Qed.

(** A loop whose body only advances the frame advances it by the
    concatenation of the steps. *)
Lemma for_each_advance {A} (body : A -> M unit)
    (errs : A -> list SourceError) (records : A -> list HarborImageRecord)
    (requests : A -> list Request) :
  (forall x f, body x f = (inr tt, advance f (errs x) (records x) (requests x))) ->
  forall l f,
    for_each l body f
    = (inr tt, advance f (flat_map errs l) (flat_map records l) (flat_map requests l)).
Proof.
  intros Hbody l. induction l as [|x l IH]; intros f.
  - simpl. unfold ret. now rewrite advance_nil.
  - rewrite for_each_cons, Hbody, IH, advance_advance. reflexivity.
Qed.

Lemma for_each_map {A B} (g : A -> B) (l : list A) (body : B -> M unit) :
  for_each (map g l) body = for_each l (fun x => body (g x)).
Proof. induction l as [|x l IH]; simpl; [reflexivity | now rewrite IH]. Qed.

Lemma flat_map_singleton {A B} (g : A -> B) (l : list A) :
  flat_map (fun x => [g x]) l = map g l.
Proof. induction l; simpl; congruence. Qed.

Lemma flat_map_nil {A B} (l : list A) :
  flat_map (fun _ => @nil B) l = [].
Proof. induction l; simpl; congruence. Qed.

(** ** The harbor walk *)

Lemma scan_all {A} (stop : A -> option exn) (l : list A) :
  (forall x, In x l -> stop x = None) -> scan stop l = (l, None).
Proof.
  induction l as [|x l IH]; intros H; simpl; [reflexivity|].
  rewrite (H x (or_introl eq_refl)), IH; [reflexivity|].
  intros y Hy. apply H. now right.
Qed.

Lemma scan_none {A} (stop : A -> option exn) (l : list A) :
  snd (scan stop l) = None ->
  fst (scan stop l) = l /\ forall x, In x l -> stop x = None.
Proof.
  induction l as [|x l IH]; simpl; intros H; [split; [reflexivity | intros x []]|].
  destruct (stop x) as [e|] eqn:E; [discriminate H|].
  destruct (scan stop l) as [visited raised]. simpl in *.
  destruct (IH H) as [Hv Hs]. split; [now rewrite Hv|].
  intros y [<-|Hy]; [assumption | now apply Hs].
Qed.

Lemma scan_stops {A} (stop : A -> option exn) (done rest : list A) (x : A) (e : exn) :
  (forall y, In y done -> stop y = None) ->
  stop x = Some e ->
  scan stop (done ++ x :: rest) = (done ++ [x], Some e).
Proof.
  intros Hdone Hx. induction done as [|y done IH]; simpl.
  - now rewrite Hx.
  - rewrite (Hdone y (or_introl eq_refl)), IH; [reflexivity|].
    intros z Hz. apply Hdone. now right.
Qed.

(** A loop whose body advances the frame and may raise advances it by
    what the items it reaches contribute, and raises what stops it. *)
Lemma for_each_scan {A} (body : A -> M unit) (stop : A -> option exn)
    (errs : A -> list SourceError) (records : A -> list HarborImageRecord)
    (requests : A -> list Request) :
  (forall x f,
      body x f = (match stop x with Some e => inl e | None => inr tt end,
                  advance f (errs x) (records x) (requests x))) ->
  forall l f,
    for_each l body f
    = (match snd (scan stop l) with Some e => inl e | None => inr tt end,
       advance f (flat_map errs (fst (scan stop l)))
                 (flat_map records (fst (scan stop l)))
                 (flat_map requests (fst (scan stop l)))).
Proof.
  intros Hbody l. induction l as [|x l IH]; intros f.
  - simpl. unfold ret. now rewrite advance_nil.
  - rewrite for_each_cons, Hbody. simpl.
    destruct (stop x) as [e|].
    + simpl. now rewrite !app_nil_r.
    + rewrite IH. destruct (scan stop l) as [visited raised]. simpl.
      now rewrite advance_advance.
Qed.

Lemma humanize_size_accepted (ns : RawSize -> exn + string)
    (a : Artifact (option RawSize)) :
  accepted ns a <-> exists h, humanize_size ns a = inr h.
Proof.
  unfold accepted, humanize_size. split.
  - intros (raw & text & -> & ->). eauto.
  - intros [h H]. destruct (art_size a) as [raw|]; [|discriminate H].
    destruct (ns raw) as [e|text] eqn:E; [discriminate H|]. eauto.
Qed.

Lemma humanize_each_accepted (ns : RawSize -> exn + string)
    (artifacts : list (Artifact (option RawSize))) :
  Forall (accepted ns) artifacts <-> exists hs, humanize_each ns artifacts = inr hs.
Proof.
  induction artifacts as [|a rest IH]; simpl.
  - split; [eauto | constructor].
  - split.
    + intros H. inversion H as [|? ? Ha Hrest]; subst.
      apply humanize_size_accepted in Ha as [h ->].
      apply IH in Hrest as [hs ->]. eauto.
    + intros [hs H].
      destruct (humanize_size ns a) as [e|h] eqn:Ea; [discriminate H|].
      destruct (humanize_each ns rest) as [e|others] eqn:Er; [discriminate H|].
      constructor; [apply humanize_size_accepted | apply IH]; eauto.
Qed.

Lemma has_tags_false {S} (a : Artifact S) : has_tags a = false -> tags_of a = [].
Proof.
  unfold has_tags, tags_of. destruct (art_tags a) as [| |[|t ts]];
    intros H; try reflexivity; discriminate.
Qed.

Section Walk.

Variable reg : Registry.
Variable harbor_cfg : HarborConfig.

Lemma emit_artifact_run (p : Project) (r : Repository)
    (a : Artifact (option RawSize)) (h : Artifact string) (f : Frame) :
  humanize_size (naturalsize reg) a = inr h ->
  emit_artifact (repo_name r) (proj_name p) h f
  = (inr tt, advance f [] (artifact_records (naturalsize reg) p r a) []).
Proof.
  intros Hh.
  assert (Hshape : art_tags h = art_tags a /\ art_digest h = art_digest a
                   /\ art_size h = size_text (naturalsize reg) a).
  { unfold size_text. rewrite Hh. unfold humanize_size in Hh.
    destruct (art_size a) as [raw|]; [|discriminate Hh].
    destruct (naturalsize reg raw); [discriminate Hh|].
    inversion Hh; subst. repeat split. }
  destruct Hshape as (Htags & Hdigest & Hsize).
  unfold emit_artifact, artifact_records.
  replace (tags_of h) with (tags_of a) by (unfold tags_of; now rewrite Htags).
  replace (has_tags h) with (has_tags a) by (unfold has_tags; now rewrite Htags).
  destruct (has_tags a) eqn:E.
  - rewrite (for_each_advance _ (fun _ => [])
               (fun t => [harbor_record (naturalsize reg) p r a t])
               (fun _ => [])).
    + now rewrite !flat_map_nil, flat_map_singleton.
    + intros t [[c hi e] l s]. unfold update_local, advance, harbor_record.
      simpl. now rewrite !app_nil_r, Hdigest, Hsize.
  - apply has_tags_false in E. rewrite E. simpl. unfold ret.
    now rewrite advance_nil.
Qed.

Lemma emit_each (p : Project) (r : Repository)
    (artifacts : list (Artifact (option RawSize))) :
  forall hs f,
    humanize_each (naturalsize reg) artifacts = inr hs ->
    for_each hs (emit_artifact (repo_name r) (proj_name p)) f
    = (inr tt,
       advance f [] (flat_map (artifact_records (naturalsize reg) p r) artifacts) []).
Proof.
  induction artifacts as [|a rest IH]; intros hs f H; simpl in H.
  - inversion H; subst. simpl. unfold ret. now rewrite advance_nil.
  - destruct (humanize_size (naturalsize reg) a) as [e|h] eqn:Ea; [discriminate H|].
    destruct (humanize_each (naturalsize reg) rest) as [e|others] eqn:Er;
      [discriminate H|].
    inversion H; subst.
    rewrite for_each_cons, (emit_artifact_run p r a h f Ea), (IH others _ eq_refl).
    now rewrite advance_advance.
Qed.

Lemma visit_repository_run (p : Project) (r : Repository) (f : Frame) :
  visit_repository reg harbor_cfg (proj_name p) r f
  = (match repository_stop reg harbor_cfg p r with
     | Some e => inl e
     | None => inr tt
     end,
     advance f (repository_errors reg harbor_cfg p r)
               (repository_records reg harbor_cfg p r)
               [artifacts_request harbor_cfg p r]).
Proof.
  unfold visit_repository, repository_errors, repository_records, repository_stop.
  fold (artifacts_request harbor_cfg p r).
  unfold bind at 1. unfold try_except, bind at 1, call. simpl.
  destruct (get_artifacts reg (artifacts_request harbor_cfg p r)) as [e|artifacts].
  - run_step. unfold advance, scoped_error. simpl. now rewrite app_nil_r.
  - unfold ret at 1. unfold bind, lift.
    destruct (humanize_each (naturalsize reg) artifacts) as [e|hs] eqn:E.
    + unfold advance. simpl. now rewrite !app_nil_r.
    + rewrite (emit_each p r artifacts hs _ E). unfold advance. simpl.
      now rewrite !app_nil_r.
Qed.

Lemma visit_project_run (p : Project) (f : Frame) :
  visit_project reg harbor_cfg p f
  = (match project_stop reg harbor_cfg p with
     | Some e => inl e
     | None => inr tt
     end,
     advance f (project_errors reg harbor_cfg p)
               (project_records reg harbor_cfg p)
               (project_requests reg harbor_cfg p)).
Proof.
  unfold visit_project, project_errors, project_records, project_requests,
    project_stop, visited_repositories, repositories_of.
  fold (repositories_request harbor_cfg p).
  unfold bind, call. simpl.
  destruct (get_repositories reg (repositories_request harbor_cfg p))
    as [e|repositories].
  - unfold advance. simpl. now rewrite !app_nil_r.
  - rewrite (for_each_scan _ (repository_stop reg harbor_cfg p)
               (repository_errors reg harbor_cfg p)
               (repository_records reg harbor_cfg p)
               (fun r => [artifacts_request harbor_cfg p r])).
    + rewrite flat_map_singleton. unfold advance. simpl.
      now rewrite <- app_assoc.
    + intros r g. apply visit_repository_run.
Qed.

(** The project loop advances the frame by what the reached projects
    contribute, and raises what stopped it. *)
Lemma project_loop_run (projects : list Project) (f : Frame) :
  for_each projects (visit_project reg harbor_cfg) f
  = (match snd (reached reg harbor_cfg projects) with
     | None => inr tt
     | Some e => inl e
     end,
     let visited := fst (reached reg harbor_cfg projects) in
     advance f (flat_map (project_errors reg harbor_cfg) visited)
               (flat_map (project_records reg harbor_cfg) visited)
               (flat_map (project_requests reg harbor_cfg) visited)).
Proof.
  unfold reached.
  rewrite (for_each_scan _ (project_stop reg harbor_cfg)
             (project_errors reg harbor_cfg) (project_records reg harbor_cfg)
             (project_requests reg harbor_cfg)).
  - now destruct (snd (scan (project_stop reg harbor_cfg) projects)).
  - intros p g. apply visit_project_run.
Qed.

(** A project the walk goes through contributes all its repositories. *)
Lemma passed_stop (p : Project) :
  passed reg harbor_cfg p <-> project_stop reg harbor_cfg p = None.
Proof.
  unfold passed, project_stop, visited_repositories, repositories_of. split.
  - intros (repositories & -> & Hacc).
    rewrite scan_all; [reflexivity|].
    intros r Hr. unfold repository_stop.
    destruct (get_artifacts reg (artifacts_request harbor_cfg p r))
      as [e|artifacts] eqn:E; [reflexivity|].
    destruct (proj1 (humanize_each_accepted _ _) (Hacc r artifacts Hr E)) as [hs ->].
    reflexivity.
  - destruct (get_repositories reg (repositories_request harbor_cfg p))
      as [e|repositories]; [discriminate|].
    intros H. exists repositories. split; [reflexivity|].
    intros r artifacts Hr E.
    destruct (scan_none _ _ H) as [_ Hnone].
    specialize (Hnone r Hr). unfold repository_stop in Hnone. rewrite E in Hnone.
    apply humanize_each_accepted.
    destruct (humanize_each (naturalsize reg) artifacts) as [e|hs];
      [discriminate Hnone | eauto].
Qed.

Lemma passed_visited (p : Project) :
  passed reg harbor_cfg p ->
  visited_repositories reg harbor_cfg p = (repositories_of reg harbor_cfg p, None).
Proof.
  intros H. pose proof (proj1 (passed_stop p) H) as Hstop.
  destruct H as (repositories & Hl & _).
  unfold project_stop in Hstop. rewrite Hl in Hstop.
  destruct (scan_none _ _ Hstop) as [Hfst _].
  unfold visited_repositories in *.
  destruct (scan (repository_stop reg harbor_cfg p) (repositories_of reg harbor_cfg p))
    as [visited raised]. simpl in *. now subst.
Qed.

End Walk.

(** ** The two branches *)

Lemma forallb_truthy_configured (cfg : AppSettings) :
  forallb truthy [url (harbor_config cfg); user (harbor_config cfg);
                  password (harbor_config cfg)]
  = configured cfg.
Proof.
  unfold configured. simpl. now rewrite andb_true_r, andb_assoc.
Qed.

Lemma append_error_run (e : SourceError) (f : Frame) :
  append_error e f = (inr tt, advance f [e] [] []).
Proof.
  unfold append_error, update_result, advance. simpl. now rewrite !app_nil_r.
Qed.

Lemma harbor_branch_run (reg : Registry) (cfg : AppSettings) (f : Frame) :
  harbor_branch reg cfg f = (inr tt, after_harbor reg cfg f).
Proof.
  unfold harbor_branch, after_harbor.
  rewrite forallb_truthy_configured.
  destruct (configured cfg); [|apply append_error_run].
  fold (projects_request (harbor_config cfg)).
  unfold try_except, bind at 1, call at 1. simpl.
  destruct (get_projects reg (projects_request (harbor_config cfg)))
    as [e|projects].
  { unfold append_error, update_result, advance, unscoped_error. simpl.
    now rewrite !app_nil_r. }
  unfold bind at 1, update_local at 1. simpl.
  unfold bind at 1. rewrite project_loop_run.
  destruct (reached reg (harbor_config cfg) projects) as [visited [e|]]; simpl.
  - unfold append_error, update_result, unscoped_error. simpl.
    now rewrite <- !app_assoc.
  - unfold read_local, set_harbor_images, update_result. simpl.
    now rewrite <- !app_assoc.
Qed.

(** The containerd branch never raises; it touches neither the harbor
    collection nor the registry, and adds at most one [containerd] error. *)
Lemma containerd_branch_run (rt : Runtime) (cfg : AppSettings) (f : Frame) :
  exists images errs,
    containerd_branch rt cfg f
    = (inr tt,
       {| result := {| containerd_images := images;
                       harbor_images := harbor_images (result f);
                       errors := errors (result f) ++ errs |};
          local_harbor_images := local_harbor_images f;
          sent := sent f |})
    /\ (errs = [] \/ exists msg, errs = [unscoped_error "containerd" msg]).
Proof.
  unfold containerd_branch, try_except, bind, lift.
  destruct (crictl_images rt) as [e|process].
  { exists (containerd_images (result f)), [unscoped_error "containerd" (str e)].
    split; [reflexivity | right; eauto]. }
  destruct (returncode process =? 0)%Z.
  - destruct (decode_utf8 rt (stdout process)) as [e|output].
    { exists (containerd_images (result f)), [unscoped_error "containerd" (str e)].
      split; [reflexivity | right; eauto]. }
    destruct (load_ignored_image_ids rt _) as [e|ignored_ids].
    { exists (containerd_images (result f)), [unscoped_error "containerd" (str e)].
      split; [reflexivity | right; eauto]. }
    destruct (parse_crictl_images_output rt output ignored_ids) as [e|images].
    { exists (containerd_images (result f)), [unscoped_error "containerd" (str e)].
      split; [reflexivity | right; eauto]. }
    exists images, []. split; [|now left].
    unfold set_containerd_images, update_result. simpl.
    now rewrite app_nil_r.
  - destruct (decode_utf8 rt (stderr process)) as [e|decoded].
    { exists (containerd_images (result f)), [unscoped_error "containerd" (str e)].
      split; [reflexivity | right; eauto]. }
    exists (containerd_images (result f)),
      [unscoped_error "containerd"
         ("Failed to execute crictl command: " ++ strip rt decoded)%string].
    split; [reflexivity | right; eauto].
Qed.

Lemma containerd_alone_shape (rt : Runtime) (cfg : AppSettings) :
  containerd_branch rt cfg entry
  = (inr tt,
     {| result := containerd_alone rt cfg; local_harbor_images := []; sent := [] |})
  /\ harbor_images (containerd_alone rt cfg) = []
  /\ Forall (fun e => source e = "containerd") (errors (containerd_alone rt cfg)).
Proof.
  unfold containerd_alone.
  destruct (containerd_branch_run rt cfg entry) as (images & errs & -> & Herrs).
  simpl. repeat split.
  destruct Herrs as [->|[msg ->]]; repeat constructor.
Qed.

(** One request, end to end. *)
Lemma serve_run (w : World) (cfg : AppSettings) :
  serve w cfg
  = let f := after_harbor (registry w) cfg
               {| result := containerd_alone (runtime w) cfg;
                  local_harbor_images := [];
                  sent := [] |} in
    (inr (jsonify (result f)), f).
Proof.
  unfold serve, get_all_images. unfold bind at 1.
  destruct (containerd_alone_shape (runtime w) cfg) as (-> & _).
  unfold bind. now rewrite harbor_branch_run.
Qed.

Lemma response_run (w : World) (cfg : AppSettings) :
  response w cfg
  = jsonify (result (after_harbor (registry w) cfg
                       {| result := containerd_alone (runtime w) cfg;
                          local_harbor_images := [];
                          sent := [] |})).
Proof. unfold response. now rewrite serve_run. Qed.

Lemma harbor_alone_run (reg : Registry) (cfg : AppSettings) :
  harbor_alone reg cfg = result (after_harbor reg cfg entry).
Proof. unfold harbor_alone. now rewrite harbor_branch_run. Qed.

Lemma reached_all (reg : Registry) (harbor_cfg : HarborConfig) (projects : list Project) :
  Forall (passed reg harbor_cfg) projects ->
  reached reg harbor_cfg projects = (projects, None).
Proof.
  intros H. unfold reached. apply scan_all.
  intros p Hp. apply passed_stop. rewrite Forall_forall in H. now apply H.
Qed.

Lemma reached_stop (reg : Registry) (harbor_cfg : HarborConfig)
    (done rest : list Project) (p : Project) (e : exn) :
  Forall (passed reg harbor_cfg) done ->
  get_repositories reg (repositories_request harbor_cfg p) = inl e ->
  reached reg harbor_cfg (done ++ p :: rest) = (done ++ [p], Some e).
Proof.
  intros Hdone Hp. unfold reached. apply scan_stops.
  - intros q Hq. apply passed_stop. rewrite Forall_forall in Hdone. now apply Hdone.
  - unfold project_stop. now rewrite Hp.
Qed.

Lemma filter_none {A} (keep : A -> bool) (l : list A) :
  Forall (fun x => keep x = false) l -> filter keep l = [].
Proof. induction 1 as [|x l Hx _ IH]; simpl; [|rewrite Hx]; auto. Qed.

Lemma filter_all {A} (keep : A -> bool) (l : list A) :
  Forall (fun x => keep x = true) l -> filter keep l = l.
Proof. induction 1 as [|x l Hx _ IH]; simpl; [|rewrite Hx, IH]; auto. Qed.

Lemma containerd_errors_not_harbor (rt : Runtime) (cfg : AppSettings) :
  Forall (fun e => is_harbor e = false) (errors (containerd_alone rt cfg)).
Proof.
  destruct (containerd_alone_shape rt cfg) as (_ & _ & H).
  eapply Forall_impl; [|exact H].
  intros e He. unfold is_harbor. now rewrite He.
Qed.

Lemma project_errors_scoped (reg : Registry) (harbor_cfg : HarborConfig)
    (projects : list Project) :
  Forall (fun e => is_unscoped e = false)
    (flat_map (project_errors reg harbor_cfg) projects).
Proof.
  apply Forall_forall. intros x Hx.
  apply in_flat_map in Hx as (p & _ & Hx).
  apply in_flat_map in Hx as (r & _ & Hx).
  unfold repository_errors in Hx.
  destruct (get_artifacts reg _); simpl in Hx; [|contradiction].
  destruct Hx as [<-|[]]. reflexivity.
Qed.

Lemma after_harbor_complete (reg : Registry) (cfg : AppSettings)
    (projects : list Project) (f : Frame) :
  configured cfg = true ->
  get_projects reg (projects_request (harbor_config cfg)) = inr projects ->
  Forall (passed reg (harbor_config cfg)) projects ->
  after_harbor reg cfg f
  = let records := flat_map (project_records reg (harbor_config cfg)) projects in
    {| result :=
         {| containerd_images := containerd_images (result f);
            harbor_images := records;
            errors := errors (result f)
                      ++ flat_map (project_errors reg (harbor_config cfg)) projects |};
       local_harbor_images := records;
       sent := sent f
               ++ projects_request (harbor_config cfg)
               :: flat_map (project_requests reg (harbor_config cfg)) projects |}.
Proof.
  intros Hcfg Hprojects Hlisted. unfold after_harbor.
  now rewrite Hcfg, Hprojects, (reached_all _ _ _ Hlisted).
Qed.

Lemma unlisted_project (reg : Registry) (harbor_cfg : HarborConfig)
    (p : Project) (e : exn) :
  get_repositories reg (repositories_request harbor_cfg p) = inl e ->
  project_errors reg harbor_cfg p = []
  /\ project_records reg harbor_cfg p = []
  /\ project_requests reg harbor_cfg p = [repositories_request harbor_cfg p].
Proof.
  intros H. unfold project_errors, project_records, project_requests,
    visited_repositories, repositories_of. now rewrite H.
Qed.

Lemma after_harbor_stopped (reg : Registry) (cfg : AppSettings)
    (done rest : list Project) (p : Project) (e : exn) (f : Frame) :
  configured cfg = true ->
  get_projects reg (projects_request (harbor_config cfg)) = inr (done ++ p :: rest) ->
  Forall (passed reg (harbor_config cfg)) done ->
  get_repositories reg (repositories_request (harbor_config cfg) p) = inl e ->
  after_harbor reg cfg f
  = {| result :=
         {| containerd_images := containerd_images (result f);
            harbor_images := harbor_images (result f);
            errors := errors (result f)
                      ++ flat_map (project_errors reg (harbor_config cfg)) done
                      ++ [unscoped_error "harbor" (str e)] |};
       local_harbor_images := flat_map (project_records reg (harbor_config cfg)) done;
       sent := sent f
               ++ projects_request (harbor_config cfg)
               :: flat_map (project_requests reg (harbor_config cfg)) done
               ++ [repositories_request (harbor_config cfg) p] |}.
Proof.
  intros Hcfg Hprojects Hdone Hp. unfold after_harbor.
  rewrite Hcfg, Hprojects, (reached_stop _ _ _ _ _ _ Hdone Hp).
  cbn [fst snd]. rewrite !flat_map_app. cbn [flat_map].
  destruct (unlisted_project _ _ _ _ Hp) as (-> & -> & ->).
  simpl. now rewrite !app_nil_r.
Qed.

(** ** The aggregator *)

(** C4: with an empty [url], [user] or [password] the response holds
    exactly one [harbor] error, reading "Harbor configuration incomplete",
    after whatever the containerd branch reported; [harbor_images] is
    empty and no request is sent to the registry. *)
Theorem incomplete_configuration_skips_harbor (w : World) (cfg : AppSettings) :
  url (harbor_config cfg) = EmptyString
  \/ user (harbor_config cfg) = EmptyString
  \/ password (harbor_config cfg) = EmptyString ->
  let r := payload (response w cfg) in
  let incomplete := unscoped_error "harbor" "Harbor configuration incomplete" in
  errors r = errors (containerd_alone (runtime w) cfg) ++ [incomplete]
  /\ filter is_harbor (errors r) = [incomplete]
  /\ harbor_images r = []
  /\ sent (snd (serve w cfg)) = [].
Proof.
  intros Hempty.
  assert (Hcfg : configured cfg = false).
  { unfold configured, truthy.
    destruct Hempty as [->|[->| ->]]; simpl;
      rewrite ?andb_false_r; reflexivity. }
  cbv zeta. rewrite response_run, serve_run. unfold after_harbor.
  rewrite Hcfg. simpl.
  destruct (containerd_alone_shape (runtime w) cfg) as (_ & Hh & _).
  repeat split; [|assumption].
  rewrite filter_app, (filter_none _ _ (containerd_errors_not_harbor _ _)).
  reflexivity.
Qed.

Lemma incomplete_configuration_skips_harbor_witness :
  harbor_images (payload (response Scenario.all_well Scenario.cfg_no_password)) = []
  /\ sent (snd (serve Scenario.all_well Scenario.cfg_no_password)) = [].
Proof.
  destruct (incomplete_configuration_skips_harbor
              Scenario.all_well Scenario.cfg_no_password)
    as (_ & _ & Himages & Hsent).
  - right. right. reflexivity.
  - split; assumption.
Defined.

Lemma one_unscoped_harbor_error (rt : Runtime) (reg : Registry) (cfg : AppSettings)
    (projects : list Project) (msg : string) :
  filter unscoped_harbor
    (errors (containerd_alone rt cfg)
     ++ flat_map (project_errors reg (harbor_config cfg)) projects
     ++ [unscoped_error "harbor" msg])
  = [unscoped_error "harbor" msg].
Proof.
  rewrite !filter_app.
  rewrite (filter_none unscoped_harbor (errors _)).
  - rewrite (filter_none unscoped_harbor (flat_map _ _)); [reflexivity|].
    eapply Forall_impl; [|apply project_errors_scoped].
    intros x Hx. unfold unscoped_harbor. now rewrite Hx, andb_false_r.
  - eapply Forall_impl; [|apply containerd_errors_not_harbor].
    intros x Hx. unfold unscoped_harbor. now rewrite Hx.
Qed.

(** C2, as the code has it: when the project list or a repository list
    cannot be fetched, the response gets exactly one unscoped [harbor]
    error, placed after the repository-scoped errors recorded so far; the
    failing request is the last one sent; and [harbor_images] of the
    response is empty - the records collected from the projects visited
    before the failure stay in the handler's local list.  The walk gets
    to the failing repository listing exactly when it went through every
    project before it ([passed]). *)
Theorem listing_failure_stops_harbor (w : World) (cfg : AppSettings) :
  configured cfg = true ->
  let reg := registry w in
  let hc := harbor_config cfg in
  let r := payload (response w cfg) in
  let f := snd (serve w cfg) in
  let before := errors (containerd_alone (runtime w) cfg) in
  (forall e,
      get_projects reg (projects_request hc) = inl e ->
      errors r = before ++ [unscoped_error "harbor" (str e)]
      /\ filter unscoped_harbor (errors r) = [unscoped_error "harbor" (str e)]
      /\ harbor_images r = []
      /\ sent f = [projects_request hc])
  /\ (forall done p rest e,
         get_projects reg (projects_request hc) = inr (done ++ p :: rest) ->
         Forall (passed reg hc) done ->
         get_repositories reg (repositories_request hc p) = inl e ->
         errors r = before ++ flat_map (project_errors reg hc) done
                    ++ [unscoped_error "harbor" (str e)]
         /\ filter unscoped_harbor (errors r) = [unscoped_error "harbor" (str e)]
         /\ harbor_images r = []
         /\ local_harbor_images f = flat_map (project_records reg hc) done
         /\ sent f = projects_request hc
                     :: flat_map (project_requests reg hc) done
                     ++ [repositories_request hc p]).
Proof.
  intros Hcfg. cbv zeta. rewrite response_run, serve_run. cbv zeta.
  destruct (containerd_alone_shape (runtime w) cfg) as (_ & Hh & _).
  split.
  - intros e He. unfold after_harbor. rewrite Hcfg, He. simpl.
    repeat split; [|assumption].
    apply (one_unscoped_harbor_error _ (registry w) _ []).
  - intros done p rest e Hprojects Hdone Hp.
    rewrite (after_harbor_stopped _ _ _ _ _ _ _ Hcfg Hprojects Hdone Hp).
    cbn [result errors harbor_images local_harbor_images sent payload jsonify snd].
    repeat split; [|assumption].
    apply one_unscoped_harbor_error.
Qed.

Lemma listing_failure_stops_harbor_witness :
  harbor_images (payload (response Scenario.nvcr_listing_down Scenario.cfg)) = []
  /\ List.length (local_harbor_images (snd (serve Scenario.nvcr_listing_down Scenario.cfg)))
     = 10.
Proof.
  destruct (listing_failure_stops_harbor Scenario.nvcr_listing_down Scenario.cfg
              eq_refl) as [_ H].
  destruct (H [Scenario.library] Scenario.nvcr [] (Exception "read timed out"))
    as (_ & _ & Himages & Hlocal & _).
  - reflexivity.
  - repeat constructor. apply passed_stop. reflexivity.
  - reflexivity.
  - split; [exact Himages | rewrite Hlocal; reflexivity].
Defined.

(** C2, as the claim words it, fails: the repository listing of the
    second project times out after ten records were collected from the
    first, and the response carries none of them. *)
Lemma listing_failure_keeps_nothing :
  get_repositories Scenario.listing_times_out
    (repositories_request (harbor_config Scenario.cfg) Scenario.nvcr)
  = inl (Exception "read timed out")
  /\ local_harbor_images (snd (serve Scenario.nvcr_listing_down Scenario.cfg))
     = project_records Scenario.listing_times_out (harbor_config Scenario.cfg)
         Scenario.library
  /\ List.length (project_records Scenario.listing_times_out
                    (harbor_config Scenario.cfg) Scenario.library) = 10
  /\ harbor_images (payload (response Scenario.nvcr_listing_down Scenario.cfg)) = []
  /\ harbor_images (payload (response Scenario.nvcr_listing_down Scenario.cfg))
     <> local_harbor_images (snd (serve Scenario.nvcr_listing_down Scenario.cfg)).
Proof.
  repeat split; try reflexivity.
  intros H. apply (f_equal (@List.length _)) in H. vm_compute in H. discriminate H.
Qed.

(** ** Records and errors, repository by repository *)

Lemma flat_map_pairs {A B C} (inner : A -> list B) (g : A -> B -> list C) (l : list A) :
  flat_map (fun a => flat_map (g a) (inner a)) l
  = flat_map (fun ab => g (fst ab) (snd ab))
      (flat_map (fun a => map (pair a) (inner a)) l).
Proof.
  induction l as [|a l IH]; simpl; [reflexivity|].
  rewrite flat_map_app, IH. f_equal.
  induction (inner a) as [|b bs IHb]; simpl; congruence.
Qed.

Lemma flat_map_length_const {A B} (g : A -> list B) (k : nat) (l : list A) :
  (forall x, In x l -> List.length (g x) = k) ->
  List.length (flat_map g l) = List.length l * k.
Proof.
  induction l as [|x l IH]; intros H; simpl; [reflexivity|].
  rewrite length_app, (H x (or_introl eq_refl)), IH; [reflexivity|].
  intros y Hy. apply H. now right.
Qed.

Lemma flat_map_agree {A B} (g h : A -> list B) (l : list A) :
  (forall x, In x l -> g x = h x) -> flat_map g l = flat_map h l.
Proof.
  induction l as [|x l IH]; intros H; simpl; [reflexivity|].
  rewrite (H x (or_introl eq_refl)), IH; [reflexivity|].
  intros y Hy. apply H. now right.
Qed.

Lemma in_repositories_under (reg : Registry) (harbor_cfg : HarborConfig)
    (projects : list Project) (p : Project) (r : Repository) :
  In (p, r) (repositories_under reg harbor_cfg projects)
  <-> In p projects /\ In r (repositories_of reg harbor_cfg p).
Proof.
  unfold repositories_under. rewrite in_flat_map. split.
  - intros (q & Hq & Hin). apply in_map_iff in Hin as (r' & E & Hr).
    inversion E; subst. now split.
  - intros [Hp Hr]. exists p. split; [assumption|]. now apply in_map.
Qed.

(** What a project the walk goes through contributes. *)
Lemma passed_project (reg : Registry) (harbor_cfg : HarborConfig) (p : Project) :
  passed reg harbor_cfg p ->
  project_records reg harbor_cfg p
  = flat_map (repository_records reg harbor_cfg p) (repositories_of reg harbor_cfg p)
  /\ project_errors reg harbor_cfg p
     = flat_map (repository_errors reg harbor_cfg p) (repositories_of reg harbor_cfg p)
  /\ project_requests reg harbor_cfg p
     = repositories_request harbor_cfg p
       :: map (artifacts_request harbor_cfg p) (repositories_of reg harbor_cfg p).
Proof.
  intros H. unfold project_records, project_errors, project_requests.
  rewrite (passed_visited _ _ _ H). auto.
Qed.

Lemma passed_accepted (reg : Registry) (harbor_cfg : HarborConfig) (p : Project)
    (r : Repository) (artifacts : list (Artifact (option RawSize))) :
  passed reg harbor_cfg p ->
  In r (repositories_of reg harbor_cfg p) ->
  get_artifacts reg (artifacts_request harbor_cfg p r) = inr artifacts ->
  Forall (accepted (naturalsize reg)) artifacts.
Proof.
  intros (repositories & Hl & Hacc) Hr Ha. unfold repositories_of in Hr.
  rewrite Hl in Hr. now apply (Hacc r).
Qed.

Lemma passed_records (reg : Registry) (harbor_cfg : HarborConfig) (p : Project)
    (r : Repository) :
  passed reg harbor_cfg p ->
  In r (repositories_of reg harbor_cfg p) ->
  repository_records reg harbor_cfg p r
  = match get_artifacts reg (artifacts_request harbor_cfg p r) with
    | inl _ => []
    | inr artifacts => flat_map (artifact_records (naturalsize reg) p r) artifacts
    end.
Proof.
  intros Hp Hr. unfold repository_records.
  destruct (get_artifacts reg (artifacts_request harbor_cfg p r))
    as [e|artifacts] eqn:E; [reflexivity|].
  destruct (proj1 (humanize_each_accepted _ _) (passed_accepted _ _ _ _ _ Hp Hr E))
    as [hs ->].
  reflexivity.
Qed.

Lemma accepted_size_text (ns : RawSize -> exn + string)
    (a : Artifact (option RawSize)) :
  accepted ns a ->
  exists raw, art_size a = Some raw /\ ns raw = inr (size_text ns a).
Proof.
  intros (raw & text & Hs & Ht). exists raw. split; [assumption|].
  unfold size_text, humanize_size. now rewrite Hs, Ht.
Qed.

Section Complete.

Variable w : World.
Variable cfg : AppSettings.
Variable projects : list Project.

Let reg := registry w.
Let hc := harbor_config cfg.

Hypothesis complete : configured cfg = true.
Hypothesis projects_listed : get_projects reg (projects_request hc) = inr projects.
Hypothesis projects_passed : Forall (passed reg hc) projects.

Lemma complete_payload :
  payload (response w cfg)
  = {| containerd_images := containerd_images (containerd_alone (runtime w) cfg);
       harbor_images :=
         flat_map (fun pr =>
                     match get_artifacts reg (artifacts_request hc (fst pr) (snd pr)) with
                     | inl _ => []
                     | inr artifacts =>
                         flat_map (artifact_records (naturalsize reg) (fst pr) (snd pr))
                           artifacts
                     end)
           (repositories_under reg hc projects);
       errors :=
         errors (containerd_alone (runtime w) cfg)
         ++ flat_map (fun pr => repository_errors reg hc (fst pr) (snd pr))
              (repositories_under reg hc projects) |}.
Proof.
  rewrite response_run.
  rewrite (after_harbor_complete _ _ _ _ complete projects_listed projects_passed).
  cbn [payload jsonify result]. unfold repositories_under.
  rewrite <- (flat_map_pairs (repositories_of reg hc)
                (fun p r =>
                   match get_artifacts reg (artifacts_request hc p r) with
                   | inl _ => []
                   | inr artifacts =>
                       flat_map (artifact_records (naturalsize reg) p r) artifacts
                   end)).
  rewrite <- (flat_map_pairs (repositories_of reg hc) (repository_errors reg hc)).
  pose proof (proj1 (Forall_forall _ _) projects_passed) as Hall.
  f_equal.
  - apply flat_map_agree. intros p Hp.
    destruct (passed_project _ _ _ (Hall p Hp)) as (Hrecords & _).
    etransitivity; [exact Hrecords|].
    apply flat_map_agree. intros r Hr. now apply passed_records; [apply Hall|].
  - f_equal. apply flat_map_agree. intros p Hp.
    now destruct (passed_project _ _ _ (Hall p Hp)) as (_ & Herrors & _).
Qed.

End Complete.

(** X17: when the project list is fetched and the walk goes through every
    project (every repository list fetched, every fetched artifact with a
    size [naturalsize] reads), each repository whose artifact fetch fails
    contributes exactly one entry [{source: "harbor", repository: <its full
    name>, error: "Failed to fetch artifacts: ..."}], in walk order, and
    nothing else; the walk goes on, so [harbor_images] holds the records
    of every repository whose artifact fetch succeeds. *)
Theorem artifact_failure_is_per_repository (w : World) (cfg : AppSettings)
    (projects : list Project) :
  configured cfg = true ->
  get_projects (registry w) (projects_request (harbor_config cfg)) = inr projects ->
  Forall (passed (registry w) (harbor_config cfg)) projects ->
  let reg := registry w in
  let hc := harbor_config cfg in
  let r := payload (response w cfg) in
  let walked := repositories_under reg hc projects in
  filter is_harbor (errors r)
  = flat_map (fun pr =>
                match get_artifacts reg (artifacts_request hc (fst pr) (snd pr)) with
                | inl e => [ {| source := "harbor";
                                err_repository := Some (repo_name (snd pr));
                                error := ("Failed to fetch artifacts: " ++ str e)%string |} ]
                | inr _ => []
                end) walked
  /\ harbor_images r
     = flat_map (fun pr =>
                   match get_artifacts reg (artifacts_request hc (fst pr) (snd pr)) with
                   | inl _ => []
                   | inr artifacts =>
                       flat_map (artifact_records (naturalsize reg) (fst pr) (snd pr))
                         artifacts
                   end) walked
  /\ (forall p repo e,
         In (p, repo) walked ->
         get_artifacts reg (artifacts_request hc p repo) = inl e ->
         In (scoped_error repo e) (errors r))
  /\ (forall p repo artifacts a t,
         In (p, repo) walked ->
         get_artifacts reg (artifacts_request hc p repo) = inr artifacts ->
         In a artifacts -> In t (tags_of a) ->
         In (harbor_record (naturalsize reg) p repo a t) (harbor_images r)).
Proof.
  intros Hcfg Hprojects Hpassed. cbv zeta.
  rewrite (complete_payload _ _ _ Hcfg Hprojects Hpassed).
  cbn [errors harbor_images]. repeat split.
  - rewrite filter_app, (filter_none _ _ (containerd_errors_not_harbor _ _)).
    simpl. apply filter_all.
    apply Forall_forall. intros x Hx.
    apply in_flat_map in Hx as (pr & _ & Hx). unfold repository_errors in Hx.
    destruct (get_artifacts _ _); [|contradiction].
    destruct Hx as [<-|[]]. reflexivity.
  - intros p repo e Hin He. apply in_or_app. right.
    apply in_flat_map. exists (p, repo). split; [assumption|].
    unfold repository_errors. simpl. rewrite He. now left.
  - intros p repo artifacts a t Hin Ha Hart Ht.
    apply in_flat_map. exists (p, repo). split; [assumption|].
    simpl. rewrite Ha.
    apply in_flat_map. exists a. split; [assumption|].
    unfold artifact_records. now apply in_map.
Qed.

Lemma artifact_failure_is_per_repository_witness :
  filter is_harbor (errors (payload (response Scenario.redis_down Scenario.cfg)))
  = [scoped_error Scenario.redis (Exception "502 Bad Gateway")]
  /\ map repository (harbor_images (payload (response Scenario.redis_down Scenario.cfg)))
     = repeat "library/nginx" 5 ++ repeat "nvcr.io/nvidia/pytorch" 5.
Proof.
  destruct (artifact_failure_is_per_repository Scenario.redis_down Scenario.cfg
              [Scenario.library; Scenario.nvcr]) as (Herrs & Himages & _).
  - reflexivity.
  - reflexivity.
  - repeat constructor; apply passed_stop; reflexivity.
  - rewrite Herrs, Himages. split; reflexivity.
Defined.


(** C6, as the code has it: when the project list is fetched and the walk
    goes through every project (every repository list fetched, every
    fetched artifact with a size [naturalsize] reads), [harbor_images] of
    the response holds, in walk order and for every repository whose
    artifact fetch succeeds, exactly one record per (artifact, tag) pair,
    carrying the repository's full name, the project's name, the tag's
    name, the artifact's digest and the text [naturalsize] gives for the
    artifact's size, which depends on the artifact alone; with [n]
    repositories of [m] artifacts tagged once each it has [n * m] records:
    15 for 3 repositories of 5 artifacts.  When a repository list cannot
    be fetched, [harbor_images] holds no record, whatever was fetched
    before. *)
Theorem one_record_per_artifact_tag (w : World) (cfg : AppSettings)
    (projects : list Project) :
  configured cfg = true ->
  get_projects (registry w) (projects_request (harbor_config cfg)) = inr projects ->
  let reg := registry w in
  let hc := harbor_config cfg in
  let r := payload (response w cfg) in
  let walked := repositories_under reg hc projects in
  let records_of := fun pr : Project * Repository =>
    match get_artifacts reg (artifacts_request hc (fst pr) (snd pr)) with
    | inl _ => []
    | inr artifacts =>
        flat_map (fun a =>
                    map (fun t =>
                           {| repository := repo_name (snd pr);
                              tag := tag_name t;
                              digest := art_digest a;
                              size := size_text (naturalsize reg) a;
                              project := proj_name (fst pr) |})
                        (tags_of a))
                 artifacts
    end in
  (Forall (passed reg hc) projects ->
   harbor_images r = flat_map records_of walked
   /\ (forall p repo artifacts a,
          In (p, repo) walked ->
          get_artifacts reg (artifacts_request hc p repo) = inr artifacts ->
          In a artifacts ->
          exists raw,
            art_size a = Some raw
            /\ naturalsize reg raw = inr (size_text (naturalsize reg) a))
   /\ (forall n m,
          List.length walked = n ->
          (forall p repo, In (p, repo) walked ->
             exists artifacts,
               get_artifacts reg (artifacts_request hc p repo) = inr artifacts
               /\ List.length artifacts = m
               /\ Forall (fun a => exists t, art_tags a = TagsList [t]) artifacts) ->
          List.length (harbor_images r) = n * m))
  /\ (forall done p rest e,
         projects = done ++ p :: rest ->
         Forall (passed reg hc) done ->
         get_repositories reg (repositories_request hc p) = inl e ->
         harbor_images r = []).
Proof.
  intros Hcfg Hprojects. cbv zeta. split.
  - intros Hpassed.
    rewrite (complete_payload _ _ _ Hcfg Hprojects Hpassed).
    cbn [harbor_images]. split; [reflexivity|]. split.
    + intros p repo artifacts a Hin Ha Hart.
      apply in_repositories_under in Hin as [Hp Hr].
      rewrite Forall_forall in Hpassed.
      pose proof (passed_accepted _ _ _ _ _ (Hpassed p Hp) Hr Ha) as Hacc.
      rewrite Forall_forall in Hacc. now apply accepted_size_text, Hacc.
    + intros n m <- Heach. apply flat_map_length_const.
      intros [p repo] Hin. destruct (Heach p repo Hin) as (artifacts & Ha & <- & Hone).
      simpl. rewrite Ha.
      rewrite <- (Nat.mul_1_r (List.length artifacts)).
      apply flat_map_length_const.
      intros a Hain. rewrite Forall_forall in Hone.
      destruct (Hone a Hain) as [t Ht].
      unfold artifact_records, tags_of. now rewrite Ht.
  - intros done p rest e -> Hdone Hp.
    rewrite response_run.
    rewrite (after_harbor_stopped _ _ _ _ _ _ _ Hcfg Hprojects Hdone Hp).
    cbn [payload jsonify result harbor_images].
    now destruct (containerd_alone_shape (runtime w) cfg) as (_ & Hh & _).
Qed.

Lemma one_record_per_artifact_tag_witness :
  List.length (harbor_images (payload (response Scenario.crictl_down Scenario.cfg))) = 15
  /\ map source (errors (payload (response Scenario.crictl_down Scenario.cfg)))
     = ["containerd"].
Proof.
  destruct (one_record_per_artifact_tag Scenario.crictl_down Scenario.cfg
              [Scenario.library; Scenario.nvcr]) as (H & _).
  - reflexivity.
  - reflexivity.
  - destruct H as (_ & _ & Hcount).
    + repeat constructor; apply passed_stop; reflexivity.
    + split; [|reflexivity].
      apply (Hcount 3 5); [reflexivity|].
      intros p repo Hin. exists Scenario.five.
      assert (Hfive : Forall (fun a : Artifact (option RawSize) =>
                                exists t, art_tags a = TagsList [t]) Scenario.five)
        by (repeat constructor; eexists; reflexivity).
      simpl in Hin.
      destruct Hin as [E|[E|[E|[]]]]; inversion E; subst;
        (split; [reflexivity | split; [reflexivity | exact Hfive]]).
Defined.

(** C6, as the claim words it, fails: the artifact fetch of
    [library/nginx] succeeds with five artifacts tagged once each, the
    repository listing of the next project times out, and the response
    holds no record of [library/nginx]. *)
Lemma fetched_repository_without_records :
  let reg := Scenario.listing_times_out in
  let hc := harbor_config Scenario.cfg in
  configured Scenario.cfg = true
  /\ get_artifacts reg (artifacts_request hc Scenario.library Scenario.nginx)
     = inr Scenario.five
  /\ Forall (accepted (naturalsize reg)) Scenario.five
  /\ List.length (flat_map (artifact_records (naturalsize reg)
                              Scenario.library Scenario.nginx) Scenario.five) = 5
  /\ harbor_images (payload (response Scenario.nvcr_listing_down Scenario.cfg)) = [].
Proof.
  cbv zeta. repeat split.
  apply humanize_each_accepted. eexists. reflexivity.
Qed.

(** ** Isolation of the two sources *)

Lemma after_harbor_frame (reg : Registry) (cfg : AppSettings) (f : Frame) :
  harbor_images (result f) = [] ->
  harbor_images (result (after_harbor reg cfg f)) = harbor_images (harbor_alone reg cfg)
  /\ containerd_images (result (after_harbor reg cfg f)) = containerd_images (result f)
  /\ errors (result (after_harbor reg cfg f))
     = errors (result f) ++ errors (harbor_alone reg cfg).
Proof.
  intros Hf. rewrite harbor_alone_run. unfold after_harbor.
  destruct (configured cfg); [|simpl; auto].
  destruct (get_projects reg _) as [e|projects]; [simpl; auto|].
  destruct (snd (reached reg (harbor_config cfg) projects)); simpl; auto.
Qed.

(** C5: the response's [harbor_images] is what the harbor branch produces
    on its own, whatever the runtime does, and its [containerd_images] is
    what the containerd branch produces on its own, whatever the registry
    does; the error list is the concatenation of the two branches' lists. *)
Theorem sources_do_not_interfere (rt : Runtime) (reg : Registry) (cfg : AppSettings) :
  let r := payload (response {| runtime := rt; registry := reg |} cfg) in
  harbor_images r = harbor_images (harbor_alone reg cfg)
  /\ containerd_images r = containerd_images (containerd_alone rt cfg)
  /\ errors r = errors (containerd_alone rt cfg) ++ errors (harbor_alone reg cfg)
  /\ (forall rt',
         harbor_images (payload (response {| runtime := rt'; registry := reg |} cfg))
         = harbor_images r)
  /\ (forall reg',
         containerd_images (payload (response {| runtime := rt; registry := reg' |} cfg))
         = containerd_images r).
Proof.
  assert (H : forall rt0 reg0,
             let r0 := payload (response {| runtime := rt0; registry := reg0 |} cfg) in
             harbor_images r0 = harbor_images (harbor_alone reg0 cfg)
             /\ containerd_images r0 = containerd_images (containerd_alone rt0 cfg)
             /\ errors r0 = errors (containerd_alone rt0 cfg)
                            ++ errors (harbor_alone reg0 cfg)).
  { intros rt0 reg0. cbv zeta. rewrite response_run.
    cbn [payload jsonify runtime registry].
    destruct (containerd_alone_shape rt0 cfg) as (_ & Hh & _).
    apply (after_harbor_frame reg0 cfg
             {| result := containerd_alone rt0 cfg;
                local_harbor_images := [];
                sent := [] |} Hh). }
  cbv zeta. destruct (H rt reg) as (Hh & Hc & He).
  repeat split; try assumption.
  - intros rt'. destruct (H rt' reg) as (Hh' & _). congruence.
  - intros reg'. destruct (H rt reg') as (_ & Hc' & _). congruence.
Qed.

(** C7: whatever the runtime and the registry do, the view returns (no
    exception leaves it); the response has status 200 and a JSON object
    with the keys [containerd_images], [harbor_images] and [errors], which
    [jsonify] writes in sorted order. *)
Theorem get_images_always_answers_200 (w : World) (cfg : AppSettings) :
  exists r,
    fst (serve w cfg) = inr r
    /\ response w cfg = r
    /\ status r = 200
    /\ keys (body r) = ["containerd_images"; "errors"; "harbor_images"]
    /\ body r = result_to_json (payload r).
Proof.
  rewrite response_run, serve_run. cbv zeta. cbn [fst].
  eexists. repeat split.
Qed.

(** ** Untagged artifacts *)

Lemma untagged_iff {S} (a : Artifact S) :
  has_tags a = false
  <-> art_tags a = TagsAbsent \/ art_tags a = TagsNull \/ art_tags a = TagsList [].
Proof.
  unfold has_tags. destruct (art_tags a) as [| |[|t ts]]; split; auto;
    try discriminate.
  intros [H|[H|H]]; discriminate H.
Qed.

Lemma flat_map_filter {A B} (keep : A -> bool) (g : A -> list B) (l : list A) :
  (forall x, keep x = false -> g x = []) ->
  flat_map g (filter keep l) = flat_map g l.
Proof.
  intros H. induction l as [|x l IH]; simpl; [reflexivity|].
  destruct (keep x) eqn:E; simpl; rewrite IH; [reflexivity|].
  now rewrite (H x E).
Qed.

Lemma scan_ext {A} (stop stop' : A -> option exn) (l : list A) :
  (forall x, stop x = stop' x) -> scan stop l = scan stop' l.
Proof.
  intros H. induction l as [|x l IH]; simpl; [reflexivity|].
  now rewrite H, IH.
Qed.

(** Removing artifacts that line 280 accepts changes neither whether it
    raises nor what it raises. *)
Lemma humanize_each_filter (ns : RawSize -> exn + string)
    (keep : Artifact (option RawSize) -> bool)
    (artifacts : list (Artifact (option RawSize))) :
  (forall a, keep a = false -> accepts ns a = true) ->
  match humanize_each ns (filter keep artifacts) with
  | inl e => Some e
  | inr _ => None
  end
  = match humanize_each ns artifacts with
    | inl e => Some e
    | inr _ => None
    end.
Proof.
  intros Hkeep. induction artifacts as [|a rest IH]; simpl; [reflexivity|].
  destruct (keep a) eqn:E; simpl.
  - destruct (humanize_size ns a) as [e|h]; [reflexivity|].
    destruct (humanize_each ns (filter keep rest)) as [e1|hs1];
      destruct (humanize_each ns rest) as [e2|hs2]; congruence.
  - specialize (Hkeep a E). unfold accepts in Hkeep.
    destruct (humanize_size ns a) as [e|h]; [discriminate Hkeep|].
    rewrite IH. now destruct (humanize_each ns rest).
Qed.

Section Untagged.

Variable reg : Registry.
Variable harbor_cfg : HarborConfig.

Let keep (a : Artifact (option RawSize)) : bool :=
  has_tags a || negb (accepts (naturalsize reg) a).

Lemma removed_accepted (a : Artifact (option RawSize)) :
  keep a = false -> has_tags a = false /\ accepts (naturalsize reg) a = true.
Proof.
  unfold keep. destruct (has_tags a), (accepts (naturalsize reg) a); simpl;
    intros H; try discriminate H. now split.
Qed.

Lemma repository_errors_without (p : Project) (r : Repository) :
  repository_errors (without_untagged reg) harbor_cfg p r
  = repository_errors reg harbor_cfg p r.
Proof.
  unfold repository_errors. simpl. now destruct (get_artifacts reg _).
Qed.

Lemma repository_stop_without (p : Project) (r : Repository) :
  repository_stop (without_untagged reg) harbor_cfg p r
  = repository_stop reg harbor_cfg p r.
Proof.
  unfold repository_stop. simpl.
  destruct (get_artifacts reg _) as [e|artifacts]; [reflexivity|].
  apply (humanize_each_filter (naturalsize reg) keep).
  intros a Ha. now apply removed_accepted.
Qed.

Lemma repository_records_without (p : Project) (r : Repository) :
  repository_records (without_untagged reg) harbor_cfg p r
  = repository_records reg harbor_cfg p r.
Proof.
  pose proof (repository_stop_without p r) as Hstop.
  unfold repository_stop, repository_records in *. simpl in *.
  destruct (get_artifacts reg _) as [e|artifacts]; [reflexivity|].
  fold keep in Hstop |- *.
  destruct (humanize_each (naturalsize reg) (filter keep artifacts));
    destruct (humanize_each (naturalsize reg) artifacts);
    try discriminate Hstop; [reflexivity|].
  apply flat_map_filter. intros a Ha. unfold artifact_records.
  now rewrite (has_tags_false a (proj1 (removed_accepted a Ha))).
Qed.

Lemma visited_without (p : Project) :
  visited_repositories (without_untagged reg) harbor_cfg p
  = visited_repositories reg harbor_cfg p.
Proof.
  unfold visited_repositories.
  change (repositories_of (without_untagged reg) harbor_cfg p)
    with (repositories_of reg harbor_cfg p).
  apply scan_ext. intros r. apply repository_stop_without.
Qed.

Lemma project_without (p : Project) :
  project_errors (without_untagged reg) harbor_cfg p = project_errors reg harbor_cfg p
  /\ project_records (without_untagged reg) harbor_cfg p
     = project_records reg harbor_cfg p
  /\ project_requests (without_untagged reg) harbor_cfg p
     = project_requests reg harbor_cfg p.
Proof.
  unfold project_errors, project_records, project_requests.
  rewrite visited_without.
  repeat split; apply flat_map_ext; intros r.
  - apply repository_errors_without.
  - apply repository_records_without.
Qed.

Lemma project_stop_without (p : Project) :
  project_stop (without_untagged reg) harbor_cfg p = project_stop reg harbor_cfg p.
Proof.
  unfold project_stop. rewrite visited_without. reflexivity.
Qed.

Lemma reached_without (projects : list Project) :
  reached (without_untagged reg) harbor_cfg projects
  = reached reg harbor_cfg projects.
Proof.
  unfold reached. apply scan_ext. intros p. apply project_stop_without.
Qed.

End Untagged.

Lemma after_harbor_without (reg : Registry) (cfg : AppSettings) (f : Frame) :
  after_harbor (without_untagged reg) cfg f = after_harbor reg cfg f.
Proof.
  unfold after_harbor. destruct (configured cfg); [|reflexivity].
  change (get_projects (without_untagged reg)) with (get_projects reg).
  destruct (get_projects reg _) as [e|projects]; [reflexivity|].
  rewrite reached_without.
  rewrite (flat_map_ext _ _ (fun p => proj1 (project_without reg _ p))).
  rewrite (flat_map_ext _ _ (fun p => proj1 (proj2 (project_without reg _ p)))).
  rewrite (flat_map_ext _ _ (fun p => proj2 (proj2 (project_without reg _ p)))).
  reflexivity.
Qed.

(** X18: an artifact with no ['tags'] key, with [null] tags or with an
    empty tag list makes the second loop (lines 282-291) append nothing;
    and when line 280 reads the size of such an artifact, the artifact
    leaves no trace: the whole run - response, local list and requests -
    is the one obtained with these artifacts removed from the registry's
    answers. *)
Theorem untagged_artifacts_are_omitted (w : World) (cfg : AppSettings) :
  (forall (a : Artifact string) full_repo_name project_name f,
      art_tags a = TagsAbsent \/ art_tags a = TagsNull \/ art_tags a = TagsList [] ->
      emit_artifact full_repo_name project_name a f = (inr tt, f))
  /\ (forall (a : Artifact (option RawSize)) p r,
         art_tags a = TagsAbsent \/ art_tags a = TagsNull \/ art_tags a = TagsList [] ->
         artifact_records (naturalsize (registry w)) p r a = [])
  /\ (forall rq artifacts,
         get_artifacts (registry w) rq = inr artifacts ->
         get_artifacts (without_untagged (registry w)) rq
         = inr (filter (fun a => has_tags a || negb (accepts (naturalsize (registry w)) a))
                  artifacts))
  /\ serve {| runtime := runtime w; registry := without_untagged (registry w) |} cfg
     = serve w cfg.
Proof.
  repeat split.
  - intros a full_repo_name project_name f H. apply untagged_iff in H.
    unfold emit_artifact. now rewrite H.
  - intros a p r H. apply untagged_iff in H. unfold artifact_records.
    now rewrite (has_tags_false a H).
  - intros rq artifacts H. simpl. now rewrite H.
  - rewrite !serve_run. cbn [runtime registry].
    now rewrite after_harbor_without.
Qed.

Lemma untagged_artifacts_are_omitted_witness :
  emit_artifact "library/nginx" "library"
    {| art_digest := "sha256:00"; art_size := "1.0 kB"; art_tags := TagsNull |} entry
  = (inr tt, entry).
Proof.
  destruct (untagged_artifacts_are_omitted Scenario.all_well Scenario.cfg) as (H & _).
  apply H. right. left. reflexivity.
Defined.


(** ** The paginated client *)

Module PaginationFacts.
Import Pagination.

Lemma firstn_more {A} (a b : nat) (l : list A) :
  firstn a l ++ firstn b (skipn a l) = firstn (a + b) l.
Proof.
  revert l. induction a as [|a IH]; intros [|x l]; simpl;
    rewrite ?firstn_nil; try reflexivity.
  now rewrite IH.
Qed.

(** What the request count has to satisfy: it is the first page at
    which the served collection is exhausted. *)
Lemma requests_needed_spec (n p : nat) (report_total : bool) :
  0 < p ->
  let t := n + (if report_total then 0 else 1) in
  let k := requests_needed n p report_total in
  1 <= k /\ t <= k * p /\ (k = 1 \/ (k - 1) * p < t).
Proof.
  intros Hp. unfold requests_needed, ceil_div. destruct report_total; cbv zeta.
  - pose proof (Nat.div_mod_eq (n + p - 1) p) as E.
    pose proof (Nat.mod_upper_bound (n + p - 1) p ltac:(lia)) as B.
    set (q := (n + p - 1) / p) in *. set (m := (n + p - 1) mod p) in *.
    destruct (Nat.max_spec 1 q) as [[Hq ->]|[Hq ->]]; nia.
  - pose proof (Nat.div_mod_eq n p) as E.
    pose proof (Nat.mod_upper_bound n p ltac:(lia)) as B.
    set (q := n / p) in *. set (m := n mod p) in *. nia.
Qed.

Section Served.

Context {A : Type}.
Variable collection : list A.
Variable report_total : bool.
Variable page_size : nat.
Hypothesis positive : 0 < page_size.

Let n := List.length collection.
Let t := n + (if report_total then 0 else 1).

Lemma exhausted_served (off : nat) :
  off <= n ->
  exhausted page_size (firstn (off + page_size) collection)
    {| items := firstn page_size (skipn off collection);
       total := if report_total then Some n else None |}
  = Nat.leb t (off + page_size).
Proof.
  intros Hoff. unfold exhausted. simpl.
  rewrite !length_firstn, length_skipn. fold n. subst t.
  destruct report_total; simpl;
    destruct (Nat.leb_spec (n + 0) (off + page_size));
    destruct (Nat.leb_spec (n + 1) (off + page_size));
    repeat match goal with
           | |- context [Nat.leb ?a ?b] => destruct (Nat.leb_spec a b)
           | |- context [Nat.ltb ?a ?b] => destruct (Nat.ltb_spec a b)
           end; simpl; try reflexivity; lia.
Qed.

Lemma fetch_served (k fuel : nat) :
  t <= k * page_size ->
  (k = 1 \/ (k - 1) * page_size < t) ->
  forall page asked,
    1 <= page -> page <= k ->
    (page - 1) * page_size <= n ->
    k - page < fuel ->
    fetch_from (serve_page collection report_total page_size) page_size
      fuel page (firstn ((page - 1) * page_size) collection) asked
    = (Some (inr collection), asked ++ seq page (k - page + 1)).
Proof.
  intros Hk Hmin. induction fuel as [|fuel IH]; intros page asked H1 Hle Hoff Hfuel;
    [lia|].
  simpl. rewrite firstn_more. fold n.
  rewrite (exhausted_served _ Hoff).
  assert (Hpage : (page - 1) * page_size + page_size = page * page_size) by nia.
  destruct (Nat.leb_spec t ((page - 1) * page_size + page_size)) as [Hstop|Hgo].
  - assert (page = k) as -> by nia.
    rewrite firstn_all2 by (subst t; fold n; destruct report_total; lia).
    now replace (k - k + 1) with 1 by lia.
  - assert (Hlt : page < k) by nia.
    replace ((page - 1) * page_size + page_size)
      with ((S page - 1) * page_size) by nia.
    rewrite IH; try lia.
    + rewrite <- app_assoc. simpl.
      now replace (k - page + 1) with (S (k - S page + 1)) by lia.
    + subst t. destruct report_total; nia.
Qed.

End Served.

(** A failed page request is the last one made, and its exception is
    the outcome of the whole fetch. *)
Lemma fetch_from_failure {A} (get_page : nat -> exn + Page A) (page_size fuel : nat) :
  forall page results asked,
  exists new,
    snd (fetch_from get_page page_size fuel page results asked) = asked ++ new
    /\ forall k e,
         In k new -> get_page k = inl e ->
         fst (fetch_from get_page page_size fuel page results asked) = Some (inl e)
         /\ exists earlier, new = earlier ++ [k].
Proof.
  induction fuel as [|fuel IH]; intros page results asked; simpl.
  - exists []. split; [now rewrite app_nil_r | intros k e []].
  - destruct (get_page page) as [e0|reply] eqn:E.
    + exists [page]. split; [reflexivity|].
      intros k e [<-|[]] Hk. rewrite E in Hk. inversion Hk; subst.
      split; [reflexivity | now exists []].
    + destruct (exhausted page_size (results ++ items reply) reply).
      * exists [page]. split; [reflexivity|].
        intros k e [<-|[]] Hk. rewrite E in Hk. discriminate Hk.
      * destruct (IH (S page) (results ++ items reply) (asked ++ [page]))
          as (new & Hnew & Hfail).
        exists (page :: new). split; [now rewrite Hnew, <- app_assoc|].
        intros k e [<-|Hin] Hk; [rewrite E in Hk; discriminate Hk|].
        destruct (Hfail k e Hin Hk) as (Hr & earlier & ->).
        split; [assumption | now exists (page :: earlier)].
Qed.

End PaginationFacts.

(** C8, as the modelled client has it: a collection of [n] items served
    in pages of [page_size > 0] is fetched whole and in order, by requests
    for pages 1, 2, ..., [k] in turn, where [k] is [max 1 (ceil (n /
    page_size))] when the registry reports the total and [n / page_size +
    1] when it does not; [k] is [ceil (n / page_size)] whenever [n > 0] and
    either the total is reported or [page_size] does not divide [n].
    Against any registry, a page request that fails is the last one made
    and its exception is the outcome: no partial list is returned. *)
Theorem paginated_fetch {A : Type} (collection : list A) (report_total : bool)
    (page_size fuel : nat) :
  0 < page_size ->
  Pagination.requests_needed (List.length collection) page_size report_total <= fuel ->
  let n := List.length collection in
  let k := Pagination.requests_needed n page_size report_total in
  Pagination.get_harbor_paginated_results
    (Pagination.serve_page collection report_total page_size) page_size fuel
  = (Some (inr collection), seq 1 k)
  /\ (0 < n -> report_total = true \/ n mod page_size <> 0 ->
      k = Pagination.ceil_div n page_size)
  /\ (forall (get_page : nat -> exn + Pagination.Page A) fuel' page e,
         let run := Pagination.get_harbor_paginated_results get_page page_size fuel' in
         In page (snd run) -> get_page page = inl e ->
         fst run = Some (inl e) /\ exists earlier, snd run = earlier ++ [page]).
Proof.
  intros Hp Hfuel. cbv zeta.
  destruct (PaginationFacts.requests_needed_spec
              (List.length collection) page_size report_total Hp)
    as (H1 & Ht & Hmin).
  split; [|split].
  - unfold Pagination.get_harbor_paginated_results.
    pose proof (PaginationFacts.fetch_served collection report_total page_size
                  Hp _ fuel Ht Hmin 1 [] (le_n 1) H1) as Hrun.
    simpl in Hrun. rewrite Hrun by lia.
    f_equal. f_equal. lia.
  - intros Hn Hcase. unfold Pagination.requests_needed, Pagination.ceil_div.
    pose proof (Nat.div_mod_eq (List.length collection) page_size) as E.
    pose proof (Nat.mod_upper_bound (List.length collection) page_size
                  ltac:(lia)) as B.
    destruct report_total.
    + apply Nat.max_r.
      apply (Nat.div_le_lower_bound _ _ 1); lia.
    + destruct Hcase as [Hc|Hc]; [discriminate Hc|].
      apply (Nat.div_unique _ _ _ (List.length collection mod page_size - 1)); nia.
  - intros get_page fuel' page e Hin Hpage.
    unfold Pagination.get_harbor_paginated_results in *.
    destruct (PaginationFacts.fetch_from_failure get_page page_size fuel' 1 [] [])
      as (new & Hnew & Hfail).
    rewrite Hnew in Hin. simpl in Hin.
    destruct (Hfail page e Hin Hpage) as (Hr & earlier & ->).
    split; [exact Hr|]. exists earlier. exact Hnew.
Qed.

Lemma paginated_fetch_witness :
  Pagination.get_harbor_paginated_results
    (Pagination.serve_page Scenario.five true 2) 2 3
  = (Some (inr Scenario.five), [1; 2; 3]).
Proof.
  destruct (@paginated_fetch _ Scenario.five true 2 3) as (H & _).
  - lia.
  - vm_compute. lia.
  - exact H.
Defined.

(** C8, as the claim words it, fails on an empty collection, which costs
    one request and not [ceil (0 / page_size) = 0], and on a collection
    that fills its last page when no total is reported. *)
Lemma paginated_fetch_request_count :
  Pagination.get_harbor_paginated_results
    (Pagination.serve_page (@nil Project) true 100) 100 3
  = (Some (inr []), [1])
  /\ List.length
       (snd (Pagination.get_harbor_paginated_results
               (Pagination.serve_page (@nil Project) true 100) 100 3))
     <> Pagination.ceil_div (List.length (@nil Project)) 100
  /\ Pagination.get_harbor_paginated_results
       (Pagination.serve_page [Scenario.library; Scenario.nvcr] false 2) 2 3
     = (Some (inr [Scenario.library; Scenario.nvcr]), [1; 2])
  /\ List.length
       (snd (Pagination.get_harbor_paginated_results
               (Pagination.serve_page [Scenario.library; Scenario.nvcr] false 2) 2 3))
     <> Pagination.ceil_div (List.length [Scenario.library; Scenario.nvcr]) 2.
Proof.
  repeat split; try reflexivity; intros H; vm_compute in H; discriminate H.
Qed.


(** * Further properties of the code *)

(** ** The encoder *)

Lemma split1_shape (sep : ascii) (s : string) :
  (PyStr.contains sep s = false /\ PyStr.split1 sep s = [s])
  \/ exists before rest,
       PyStr.contains sep before = false
       /\ s = (before ++ String sep rest)%string
       /\ PyStr.split1 sep s = [before; rest].
Proof.
  induction s as [|c s IH]; simpl.
  - now left.
  - destruct (Ascii.eqb_spec c sep) as [->|Hc].
    + right. exists EmptyString, s. repeat split.
    + destruct IH as [[Hno ->]|(before & rest & Hb & -> & ->)].
      * left. split; [assumption | reflexivity].
      * right. exists (String c before), rest. simpl.
        apply Ascii.eqb_neq in Hc. rewrite Hc. repeat split. assumption.
Qed.

Lemma encode_slash_free_project (full_repo_name project_name : string) :
  PyStr.contains PyStr.slash project_name = false ->
  encode_repository_name full_repo_name project_name
  = PyStr.replace PyStr.slash "%252F" (after_first_slash full_repo_name).
Proof.
  intros Hp. unfold encode_repository_name, after_first_slash.
  destruct (PyStr.startswith full_repo_name (project_name ++ "/")%string) eqn:E;
    [|reflexivity].
  apply PyStrFacts.startswith_inv in E as [rest ->].
  rewrite <- PyStrFacts.append_assoc.
  change ("/" ++ rest)%string with (String PyStr.slash rest).
  rewrite (PyStrFacts.split1_first _ _ _ Hp). simpl. f_equal.
  change (String PyStr.slash rest) with ("/" ++ rest)%string.
  rewrite PyStrFacts.append_assoc.
  replace (String.length project_name + 1)
    with (String.length (project_name ++ "/")%string)
    by (rewrite PyStrFacts.length_app; reflexivity).
  apply PyStrFacts.slice_from_app.
Qed.

(** X1: for project names that hold no ['/'] - every name the registry
    hands out - the project argument does not matter: the result is the
    encoding of what follows the first ['/'] of the repository name (or of
    the whole name), whether or not the name starts with the project. *)
Theorem encode_ignores_slash_free_project
    (full_repo_name project_name other_project : string) :
  PyStr.contains PyStr.slash project_name = false ->
  PyStr.contains PyStr.slash other_project = false ->
  encode_repository_name full_repo_name project_name
  = encode_repository_name full_repo_name other_project
  /\ encode_repository_name full_repo_name project_name
     = PyStr.replace PyStr.slash "%252F" (after_first_slash full_repo_name).
Proof.
  intros Hp Hq. split.
  - now rewrite !encode_slash_free_project.
  - now apply encode_slash_free_project.
Qed.

Lemma encode_ignores_slash_free_project_witness :
  encode_repository_name "nvcr.io/nvidia/pytorch" "library"
  = encode_repository_name "nvcr.io/nvidia/pytorch" "nvcr.io".
Proof.
  apply (encode_ignores_slash_free_project
           "nvcr.io/nvidia/pytorch" "library" "nvcr.io"); reflexivity.
Defined.

Lemma replace_slash_injective (a b : string) :
  PyStr.contains percent a = false ->
  PyStr.contains percent b = false ->
  PyStr.replace PyStr.slash "%252F" a = PyStr.replace PyStr.slash "%252F" b ->
  a = b.
Proof.
  revert b. induction a as [|c a IH]; intros [|d b] Ha Hb H; simpl in *.
  - reflexivity.
  - destruct (Ascii.eqb d PyStr.slash); discriminate H.
  - destruct (Ascii.eqb c PyStr.slash); discriminate H.
  - apply orb_false_iff in Ha as [Hc Ha]. apply orb_false_iff in Hb as [Hd Hb].
    destruct (Ascii.eqb_spec c PyStr.slash) as [->|Hcs];
      destruct (Ascii.eqb_spec d PyStr.slash) as [->|Hds].
    + inversion H. f_equal. now apply IH.
    + inversion H; subst. discriminate Hd.
    + inversion H; subst. discriminate Hc.
    + inversion H; subst. f_equal. now apply IH.
Qed.

(** X2: two different repositories of one project whose paths hold no
    ['%'] never share an encoded name; with ['%'] allowed they can: a path
    with a literal [%252F] collides with the path that has ['/'] in its
    place. *)
Theorem encode_injective_without_percent (project_name : string) :
  (forall a b,
      PyStr.contains percent a = false ->
      PyStr.contains percent b = false ->
      a <> b ->
      encode_repository_name (project_name ++ "/" ++ a)%string project_name
      <> encode_repository_name (project_name ++ "/" ++ b)%string project_name)
  /\ (forall x y,
         encode_repository_name (project_name ++ "/" ++ x ++ "/" ++ y)%string project_name
         = encode_repository_name (project_name ++ "/" ++ x ++ "%252F" ++ y)%string
             project_name).
Proof.
  assert (Henc : forall rest,
             encode_repository_name (project_name ++ "/" ++ rest)%string project_name
             = PyStr.replace PyStr.slash "%252F" rest).
  { intros rest. unfold encode_repository_name.
    rewrite PyStrFacts.append_assoc, PyStrFacts.startswith_app.
    replace (String.length project_name + 1)
      with (String.length (project_name ++ "/")%string)
      by (rewrite PyStrFacts.length_app; reflexivity).
    now rewrite PyStrFacts.slice_from_app. }
  split.
  - intros a b Ha Hb Hne H. rewrite !Henc in H.
    apply Hne. now apply replace_slash_injective.
  - intros x y. rewrite !Henc, !PyStrFacts.replace_app. reflexivity.
Qed.

Lemma encode_injective_without_percent_witness :
  encode_repository_name "nvcr.io/nvidia/pytorch" "nvcr.io"
  <> encode_repository_name "nvcr.io/nvidia/cuda" "nvcr.io".
Proof.
  destruct (encode_injective_without_percent "nvcr.io") as [H _].
  apply (H "nvidia/pytorch" "nvidia/cuda"); [reflexivity | reflexivity |].
  intros E. discriminate E.
Defined.

(** ** The shape of every response *)

Lemma payload_parts (w : World) (cfg : AppSettings) :
  let r := payload (response w cfg) in
  harbor_images r = harbor_images (harbor_alone (registry w) cfg)
  /\ containerd_images r = containerd_images (containerd_alone (runtime w) cfg)
  /\ errors r = errors (containerd_alone (runtime w) cfg)
                ++ errors (harbor_alone (registry w) cfg).
Proof.
  cbv zeta. rewrite response_run. cbn [payload jsonify].
  destruct (containerd_alone_shape (runtime w) cfg) as (_ & Hh & _).
  apply (after_harbor_frame (registry w) cfg
           {| result := containerd_alone (runtime w) cfg;
              local_harbor_images := [];
              sent := [] |} Hh).
Qed.

Lemma reached_none (reg : Registry) (harbor_cfg : HarborConfig) (projects : list Project) :
  snd (reached reg harbor_cfg projects) = None ->
  Forall (passed reg harbor_cfg) projects
  /\ fst (reached reg harbor_cfg projects) = projects.
Proof.
  intros H. destruct (scan_none _ _ H) as [Hfst Hnone]. split; [|exact Hfst].
  apply Forall_forall. intros p Hp. apply passed_stop. now apply Hnone.
Qed.

Lemma reached_some (reg : Registry) (harbor_cfg : HarborConfig)
    (projects : list Project) (e : exn) :
  snd (reached reg harbor_cfg projects) = Some e ->
  ~ Forall (passed reg harbor_cfg) projects.
Proof.
  intros H Hall. rewrite (reached_all _ _ _ Hall) in H. discriminate H.
Qed.

Lemma project_errors_entries (reg : Registry) (harbor_cfg : HarborConfig)
    (projects : list Project) :
  Forall scoped_harbor_entry (flat_map (project_errors reg harbor_cfg) projects).
Proof.
  apply Forall_forall. intros x Hx.
  apply in_flat_map in Hx as (p & _ & Hx).
  apply in_flat_map in Hx as (r & _ & Hx).
  unfold repository_errors in Hx.
  destruct (get_artifacts reg _); simpl in Hx; [|contradiction].
  destruct Hx as [<-|[]]. split; [reflexivity | now exists (repo_name r)].
Qed.

(** The harbor branch on its own either completes the walk or ends on one
    unscoped error with nothing published. *)
Lemma harbor_alone_cases (reg : Registry) (cfg : AppSettings) :
  (exists projects,
      configured cfg = true
      /\ get_projects reg (projects_request (harbor_config cfg)) = inr projects
      /\ Forall (passed reg (harbor_config cfg)) projects
      /\ harbor_alone reg cfg
         = {| containerd_images := [];
              harbor_images := flat_map (project_records reg (harbor_config cfg)) projects;
              errors := flat_map (project_errors reg (harbor_config cfg)) projects |})
  \/ (exists scoped msg,
         ~ (configured cfg = true
            /\ exists projects,
                 get_projects reg (projects_request (harbor_config cfg)) = inr projects
                 /\ Forall (passed reg (harbor_config cfg)) projects)
         /\ Forall scoped_harbor_entry scoped
         /\ harbor_alone reg cfg
            = {| containerd_images := [];
                 harbor_images := [];
                 errors := scoped ++ [unscoped_error "harbor" msg] |}).
Proof.
  rewrite harbor_alone_run. unfold after_harbor.
  destruct (configured cfg) eqn:Hcfg.
  - destruct (get_projects reg _) as [e|projects] eqn:Hp.
    + right. exists [], (str e). repeat split; [|constructor].
      intros (_ & projects & H & _). discriminate H.
    + destruct (snd (reached reg (harbor_config cfg) projects)) as [e|] eqn:Hr.
      * right. exists (flat_map (project_errors reg (harbor_config cfg))
                         (fst (reached reg (harbor_config cfg) projects))), (str e).
        repeat split; [|apply project_errors_entries].
        intros (_ & projects' & H & Hall). inversion H; subst.
        exact (reached_some _ _ _ _ Hr Hall).
      * left. destruct (reached_none _ _ _ Hr) as [Hall Hv].
        exists projects. rewrite Hv. repeat split; assumption.
  - right. exists [], "Harbor configuration incomplete".
    repeat split; [|constructor].
    intros (H & _). discriminate H.
Qed.

Lemma harbor_alone_sources (reg : Registry) (cfg : AppSettings) :
  Forall (fun e => source e = "harbor") (errors (harbor_alone reg cfg)).
Proof.
  destruct (harbor_alone_cases reg cfg)
    as [(projects & _ & _ & _ & ->)|(scoped & msg & _ & Hs & ->)]; simpl.
  - eapply Forall_impl; [|apply project_errors_entries]. now intros e [He _].
  - apply Forall_app. split; [|repeat constructor].
    eapply Forall_impl; [|exact Hs]. now intros e [He _].
Qed.

Lemma containerd_errors_shape (rt : Runtime) (cfg : AppSettings) :
  errors (containerd_alone rt cfg) = []
  \/ exists msg, errors (containerd_alone rt cfg) = [unscoped_error "containerd" msg].
Proof.
  unfold containerd_alone.
  destruct (containerd_branch_run rt cfg entry) as (images & errs & -> & H).
  exact H.
Qed.

(** X3: in every response the error entries come in this order: at most
    one [containerd] entry, then the repository-scoped [harbor] entries,
    then at most one unscoped [harbor] entry; there is no other kind. *)
Theorem errors_are_ordered_by_source (w : World) (cfg : AppSettings) :
  exists from_runtime scoped last,
    errors (payload (response w cfg)) = from_runtime ++ scoped ++ last
    /\ (from_runtime = []
        \/ exists msg, from_runtime = [unscoped_error "containerd" msg])
    /\ Forall (fun e => source e = "harbor"
                        /\ exists repo, err_repository e = Some repo) scoped
    /\ (last = [] \/ exists msg, last = [unscoped_error "harbor" msg]).
Proof.
  destruct (payload_parts w cfg) as (_ & _ & ->).
  exists (errors (containerd_alone (runtime w) cfg)).
  destruct (harbor_alone_cases (registry w) cfg)
    as [(projects & _ & _ & _ & ->)|(scoped & msg & _ & Hs & ->)]; simpl.
  - exists (flat_map (project_errors (registry w) (harbor_config cfg)) projects), [].
    rewrite app_nil_r. repeat split.
    + apply containerd_errors_shape.
    + apply project_errors_entries.
    + now left.
  - exists scoped, [unscoped_error "harbor" msg]. repeat split.
    + apply containerd_errors_shape.
    + exact Hs.
    + right. now exists msg.
Qed.

Lemma filter_unscoped_harbor_scoped (scoped : list SourceError) :
  Forall scoped_harbor_entry scoped -> filter unscoped_harbor scoped = [].
Proof.
  intros H. apply filter_none. eapply Forall_impl; [|exact H].
  intros e (_ & repo & Hr). unfold unscoped_harbor, is_unscoped.
  now rewrite Hr, andb_false_r.
Qed.

Lemma filter_unscoped_harbor_runtime (rt : Runtime) (cfg : AppSettings) :
  filter unscoped_harbor (errors (containerd_alone rt cfg)) = [].
Proof.
  apply filter_none. eapply Forall_impl; [|apply containerd_errors_not_harbor].
  intros e He. unfold unscoped_harbor. now rewrite He.
Qed.

(** X4: the response carries no unscoped [harbor] error exactly when the
    configuration is complete, the project list is fetched and the walk
    goes through every project (its repository list is fetched and line
    280 reads the size of every artifact fetched from its repositories);
    and whenever it carries one, [harbor_images] is empty - so a response
    with harbor images comes from a walk that reached every listed
    repository. *)
Theorem unscoped_harbor_error_means_no_images (w : World) (cfg : AppSettings) :
  let r := payload (response w cfg) in
  let reg := registry w in
  let hc := harbor_config cfg in
  (filter unscoped_harbor (errors r) = []
   <-> configured cfg = true
       /\ exists projects,
            get_projects reg (projects_request hc) = inr projects
            /\ Forall (passed reg hc) projects)
  /\ (filter unscoped_harbor (errors r) <> [] -> harbor_images r = [])
  /\ (harbor_images r <> [] -> filter unscoped_harbor (errors r) = []).
Proof.
  cbv zeta. destruct (payload_parts w cfg) as (-> & _ & ->).
  rewrite filter_app, filter_unscoped_harbor_runtime. simpl.
  destruct (harbor_alone_cases (registry w) cfg)
    as [(projects & Hcfg & Hp & Hall & ->)|(scoped & msg & Hnot & Hs & ->)]; simpl.
  - rewrite (filter_unscoped_harbor_scoped _ (project_errors_entries _ _ _)).
    repeat split; try congruence; eauto.
  - rewrite filter_app, (filter_unscoped_harbor_scoped _ Hs). simpl.
    repeat split; congruence.
Qed.

Lemma unscoped_harbor_error_means_no_images_witness :
  filter unscoped_harbor
    (errors (payload (response Scenario.redis_down Scenario.cfg))) = [].
Proof.
  destruct (unscoped_harbor_error_means_no_images Scenario.redis_down Scenario.cfg)
    as (_ & _ & H).
  apply H. intros E. vm_compute in E. discriminate E.
Defined.

(** ** The containerd branch *)

Lemma filter_containerd_errors (w : World) (cfg : AppSettings) :
  filter is_containerd (errors (payload (response w cfg)))
  = errors (containerd_alone (runtime w) cfg).
Proof.
  destruct (payload_parts w cfg) as (_ & _ & ->).
  rewrite filter_app, filter_all, filter_none; [apply app_nil_r | |].
  - eapply Forall_impl; [|apply harbor_alone_sources].
    intros e He. unfold is_containerd. now rewrite He.
  - destruct (containerd_alone_shape (runtime w) cfg) as (_ & _ & H).
    eapply Forall_impl; [|exact H].
    intros e He. unfold is_containerd. now rewrite He.
Qed.

(** X5: [containerd_images] is filled only when [crictl] exits with 0 and
    decoding, the ignore list and the parser all succeed, and then no
    [containerd] error is reported; in every other case it is empty and
    exactly one [containerd] error is reported.  After a nonzero exit the
    error carries [crictl]'s stripped stderr, unless stderr cannot be
    decoded: then the decoder's message takes its place. *)
Theorem containerd_is_all_or_nothing (w : World) (cfg : AppSettings) :
  let r := payload (response w cfg) in
  let rt := runtime w in
  let reported := filter is_containerd (errors r) in
  ((reported = []
    /\ exists process output ids,
         crictl_images rt = inr process
         /\ returncode process = 0%Z
         /\ decode_utf8 rt (stdout process) = inr output
         /\ load_ignored_image_ids rt (ignore_file_path (crictl_config cfg)) = inr ids
         /\ parse_crictl_images_output rt output ids = inr (containerd_images r))
   \/ (containerd_images r = []
       /\ exists msg, reported = [unscoped_error "containerd" msg]))
  /\ (forall process text,
         crictl_images rt = inr process ->
         returncode process <> 0%Z ->
         decode_utf8 rt (stderr process) = inr text ->
         reported
         = [unscoped_error "containerd"
              ("Failed to execute crictl command: " ++ strip rt text)%string])
  /\ (forall process e,
         crictl_images rt = inr process ->
         returncode process <> 0%Z ->
         decode_utf8 rt (stderr process) = inl e ->
         reported = [unscoped_error "containerd" (str e)]).
Proof.
  cbv zeta. rewrite filter_containerd_errors.
  destruct (payload_parts w cfg) as (_ & -> & _).
  unfold containerd_alone, containerd_branch, try_except, bind, lift.
  destruct (crictl_images (runtime w)) as [e|process].
  { split; [right; simpl; (split; [reflexivity | eexists; reflexivity])|]. split; intros ? ? H; discriminate H. }
  destruct (Z.eqb_spec (returncode process) 0) as [Hz|Hnz].
  - split.
    + destruct (decode_utf8 (runtime w) (stdout process)) as [e|output] eqn:Hd;
        [right; simpl; (split; [reflexivity | eexists; reflexivity])|].
      destruct (load_ignored_image_ids (runtime w) _) as [e|ids] eqn:Hl;
        [right; simpl; (split; [reflexivity | eexists; reflexivity])|].
      destruct (parse_crictl_images_output (runtime w) output ids) as [e|images] eqn:Hp;
        [right; simpl; (split; [reflexivity | eexists; reflexivity])|].
      left. simpl. split; [reflexivity|].
      exists process, output, ids. repeat split; assumption.
    + split; intros p ? Hp Hne; inversion Hp; subst; contradiction.
  - split.
    + destruct (decode_utf8 (runtime w) (stderr process)) as [e|text];
        right; simpl; (split; [reflexivity | eexists; reflexivity]).
    + split; intros p x Hp _ Hd; inversion Hp; subst; rewrite Hd; reflexivity.
Qed.

Lemma containerd_is_all_or_nothing_witness :
  filter is_containerd (errors (payload (response Scenario.crictl_down Scenario.cfg)))
  = [unscoped_error "containerd"
       "Failed to execute crictl command: permission denied"].
Proof.
  destruct (containerd_is_all_or_nothing Scenario.crictl_down Scenario.cfg)
    as (_ & H & _).
  apply (H {| returncode := 1; stdout := []; stderr := [] |} "permission denied").
  - reflexivity.
  - intros E. discriminate E.
  - reflexivity.
Defined.

(** ** The requests sent to the registry *)

Lemma sent_serve (w : World) (cfg : AppSettings) :
  sent (snd (serve w cfg))
  = if configured cfg
    then projects_request (harbor_config cfg)
         :: match get_projects (registry w) (projects_request (harbor_config cfg)) with
            | inl _ => []
            | inr projects =>
                flat_map (project_requests (registry w) (harbor_config cfg))
                  (fst (reached (registry w) (harbor_config cfg) projects))
            end
    else [].
Proof.
  rewrite serve_run. cbv zeta. cbn [snd]. unfold after_harbor.
  destruct (configured cfg); [|reflexivity].
  destruct (get_projects (registry w) _) as [e|projects]; [reflexivity|].
  now destruct (snd (reached (registry w) (harbor_config cfg) projects)).
Qed.

Lemma under_projects_url (harbor_cfg : HarborConfig) (tail : string) :
  PyStr.startswith (api_root harbor_cfg ++ "/projects" ++ tail)%string
    (projects_url harbor_cfg) = true.
Proof.
  unfold projects_url. rewrite PyStrFacts.append_assoc.
  apply PyStrFacts.startswith_app.
Qed.

(** X6: every request the handler sends carries the configured user and
    password and the configured TLS toggle, and goes to a URL that extends
    the project-listing URL [<url without trailing slashes>/api/v2.0/projects];
    the first request is the project listing, and only it has query
    parameters. *)
Theorem requests_stay_under_the_registry (w : World) (cfg : AppSettings) :
  let hc := harbor_config cfg in
  let requests := sent (snd (serve w cfg)) in
  Forall (fun rq =>
            req_auth rq = (user hc, password hc)
            /\ req_verify_ssl rq = verify_ssl hc
            /\ PyStr.startswith (req_url rq) (projects_url hc) = true)
         requests
  /\ (requests = []
      \/ exists rest,
           requests = projects_request hc :: rest
           /\ Forall (fun rq => req_params rq = []) rest)
  /\ projects_url hc
     = (PyStr.rstrip PyStr.slash (url hc) ++ "/api/v2.0" ++ "/projects")%string.
Proof.
  cbv zeta. rewrite sent_serve.
  assert (Hwalk : forall projects,
             Forall (fun rq =>
                       (req_auth rq = (user (harbor_config cfg), password (harbor_config cfg))
                        /\ req_verify_ssl rq = verify_ssl (harbor_config cfg)
                        /\ PyStr.startswith (req_url rq)
                             (projects_url (harbor_config cfg)) = true)
                       /\ req_params rq = [])
                    (flat_map (project_requests (registry w) (harbor_config cfg)) projects)).
  { intros projects. apply Forall_forall. intros rq Hrq.
    apply in_flat_map in Hrq as (p & _ & Hrq).
    destruct Hrq as [<-|Hrq].
    - repeat split.
      apply (under_projects_url _ ("/" ++ proj_name p ++ "/repositories")%string).
    - apply in_map_iff in Hrq as (r & <- & _). repeat split.
      apply (under_projects_url _
               ("/" ++ proj_name p ++ "/repositories/"
                  ++ encode_repository_name (repo_name r) (proj_name p)
                  ++ "/artifacts")%string). }
  assert (Hfirst : PyStr.startswith (req_url (projects_request (harbor_config cfg)))
                     (projects_url (harbor_config cfg)) = true).
  { simpl. unfold PyStr.startswith. apply String.prefix_correct.
    clear. induction (projects_url (harbor_config cfg)) as [|c s IH]; simpl;
      [reflexivity | now rewrite IH]. }
  split; [|split].
  - destruct (configured cfg); [|constructor].
    constructor; [repeat split; exact Hfirst|].
    destruct (get_projects (registry w) _) as [e|projects]; [constructor|].
    eapply Forall_impl; [|apply Hwalk]. now intros rq [H _].
  - destruct (configured cfg); [|now left].
    right. eexists. split; [reflexivity|].
    destruct (get_projects (registry w) _) as [e|projects]; [constructor|].
    eapply Forall_impl; [|apply Hwalk]. now intros rq [_ H].
  - unfold projects_url, api_root. now rewrite <- PyStrFacts.append_assoc.
Qed.

Lemma project_requests_length (reg : Registry) (harbor_cfg : HarborConfig)
    (projects : list Project) :
  List.length (flat_map (fun p => repositories_request harbor_cfg p
                                  :: map (artifacts_request harbor_cfg p)
                                       (repositories_of reg harbor_cfg p))
                 projects)
  = List.length projects + List.length (repositories_under reg harbor_cfg projects).
Proof.
  unfold repositories_under.
  induction projects as [|p rest IH]; simpl; [reflexivity|].
  rewrite !length_app, !length_map, IH. lia.
Qed.

(** X7: when the project list is fetched and the walk goes through every
    project (every repository list fetched, every fetched artifact with a
    size line 280 reads), the handler sends, in depth-first order and once
    each, the project listing, one repository listing per project and one
    artifact listing per listed repository - nothing is retried, cached or
    skipped, whether or not an artifact listing fails: 1 + projects +
    repositories requests in all. *)
Theorem walk_requests_once_each (w : World) (cfg : AppSettings)
    (projects : list Project) :
  configured cfg = true ->
  get_projects (registry w) (projects_request (harbor_config cfg)) = inr projects ->
  Forall (passed (registry w) (harbor_config cfg)) projects ->
  let reg := registry w in
  let hc := harbor_config cfg in
  sent (snd (serve w cfg))
  = projects_request hc
    :: flat_map (fun p => repositories_request hc p
                          :: map (artifacts_request hc p) (repositories_of reg hc p))
         projects
  /\ List.length (sent (snd (serve w cfg)))
     = 1 + List.length projects + List.length (repositories_under reg hc projects).
Proof.
  intros Hcfg Hprojects Hpassed. cbv zeta.
  rewrite sent_serve, Hcfg, Hprojects, (reached_all _ _ _ Hpassed). cbn [fst].
  rewrite (flat_map_agree (project_requests (registry w) (harbor_config cfg))
             (fun p => repositories_request (harbor_config cfg) p
                       :: map (artifacts_request (harbor_config cfg) p)
                            (repositories_of (registry w) (harbor_config cfg) p))).
  - split; [reflexivity|].
    cbn [List.length]. now rewrite project_requests_length.
  - intros p Hp. rewrite Forall_forall in Hpassed.
    now destruct (passed_project _ _ _ (Hpassed p Hp)) as (_ & _ & H).
Qed.

Lemma walk_requests_once_each_witness :
  List.length (sent (snd (serve Scenario.redis_down Scenario.cfg))) = 6.
Proof.
  destruct (walk_requests_once_each Scenario.redis_down Scenario.cfg
              [Scenario.library; Scenario.nvcr]) as (_ & H).
  - reflexivity.
  - reflexivity.
  - repeat constructor; apply passed_stop; reflexivity.
  - rewrite H. reflexivity.
Defined.

(** ** Trailing slashes of the configured URL *)

Section SameRequests.

Variable reg : Registry.
Variables hc hc' : HarborConfig.

Hypothesis same_repositories :
  forall p, repositories_request hc p = repositories_request hc' p.
Hypothesis same_artifacts :
  forall p r, artifacts_request hc p r = artifacts_request hc' p r.

Lemma repositories_of_same (p : Project) :
  repositories_of reg hc p = repositories_of reg hc' p.
Proof. unfold repositories_of. now rewrite same_repositories. Qed.

Lemma visited_same (p : Project) :
  visited_repositories reg hc p = visited_repositories reg hc' p.
Proof.
  unfold visited_repositories. rewrite repositories_of_same.
  apply scan_ext. intros r. unfold repository_stop. now rewrite same_artifacts.
Qed.

Lemma project_parts_same (p : Project) :
  project_errors reg hc p = project_errors reg hc' p
  /\ project_records reg hc p = project_records reg hc' p
  /\ project_requests reg hc p = project_requests reg hc' p.
Proof.
  unfold project_errors, project_records, project_requests.
  rewrite visited_same, same_repositories. repeat split.
  - apply flat_map_ext. intros r. unfold repository_errors.
    now rewrite same_artifacts.
  - apply flat_map_ext. intros r. unfold repository_records.
    now rewrite same_artifacts.
  - f_equal. apply map_ext. intros r. apply same_artifacts.
Qed.

Lemma reached_same (projects : list Project) :
  reached reg hc projects = reached reg hc' projects.
Proof.
  unfold reached. apply scan_ext. intros p. unfold project_stop.
  now rewrite visited_same, same_repositories.
Qed.

End SameRequests.

Lemma rstrip_more (c : ascii) (s : string) :
  PyStr.rstrip c (s ++ String c EmptyString)%string = PyStr.rstrip c s.
Proof.
  induction s as [|a s IH]; simpl.
  - now rewrite Ascii.eqb_refl.
  - now rewrite IH.
Qed.

Lemma after_harbor_same_root (reg : Registry) (cfg : AppSettings) (u u' : string)
    (f : Frame) :
  truthy u = truthy u' ->
  PyStr.rstrip PyStr.slash u = PyStr.rstrip PyStr.slash u' ->
  after_harbor reg (with_url cfg u) f = after_harbor reg (with_url cfg u') f.
Proof.
  intros Ht Hr.
  assert (Hroot : api_root (harbor_config (with_url cfg u))
                  = api_root (harbor_config (with_url cfg u')))
    by (unfold api_root; simpl; now rewrite Hr).
  assert (Hp : projects_request (harbor_config (with_url cfg u))
               = projects_request (harbor_config (with_url cfg u')))
    by (unfold projects_request, projects_url, request; now rewrite Hroot).
  assert (Hrepos : forall p,
             repositories_request (harbor_config (with_url cfg u)) p
             = repositories_request (harbor_config (with_url cfg u')) p)
    by (intros p; unfold repositories_request, repos_url, request; now rewrite Hroot).
  assert (Harts : forall p r,
             artifacts_request (harbor_config (with_url cfg u)) p r
             = artifacts_request (harbor_config (with_url cfg u')) p r)
    by (intros p r; unfold artifacts_request, artifacts_url, request; now rewrite Hroot).
  unfold after_harbor. cbv zeta.
  replace (configured (with_url cfg u')) with (configured (with_url cfg u))
    by (unfold configured; simpl; now rewrite Ht).
  rewrite Hp.
  destruct (configured (with_url cfg u)); [|reflexivity].
  destruct (get_projects reg _) as [e|projects]; [reflexivity|].
  rewrite (reached_same reg _ _ Hrepos Harts).
  rewrite (flat_map_ext _ _
             (fun p => proj1 (project_parts_same reg _ _ Hrepos Harts p))).
  rewrite (flat_map_ext _ _
             (fun p => proj1 (proj2 (project_parts_same reg _ _ Hrepos Harts p)))).
  rewrite (flat_map_ext _ _
             (fun p => proj2 (proj2 (project_parts_same reg _ _ Hrepos Harts p)))).
  reflexivity.
Qed.

(** X8: trailing slashes of the configured URL do not matter: two
    non-empty URLs that agree once their trailing ['/'] are removed give
    the same requests and the same response; in particular one more
    trailing ['/'] changes nothing. *)
Theorem trailing_slashes_do_not_matter (w : World) (cfg : AppSettings) (u u' : string) :
  u <> EmptyString -> u' <> EmptyString ->
  PyStr.rstrip PyStr.slash u = PyStr.rstrip PyStr.slash u' ->
  serve w (with_url cfg u) = serve w (with_url cfg u')
  /\ serve w (with_url cfg (u ++ "/")) = serve w (with_url cfg u).
Proof.
  intros Hu Hu' Hr.
  assert (Hserve : forall a b,
             truthy a = truthy b ->
             PyStr.rstrip PyStr.slash a = PyStr.rstrip PyStr.slash b ->
             serve w (with_url cfg a) = serve w (with_url cfg b)).
  { intros a b Ht Hab. rewrite !serve_run. cbv zeta.
    change (containerd_alone (runtime w) (with_url cfg a))
      with (containerd_alone (runtime w) (with_url cfg b)).
    now rewrite (after_harbor_same_root _ _ _ _ _ Ht Hab). }
  assert (Htruthy : forall a, a <> EmptyString -> truthy a = true).
  { intros [|c a] Ha; [contradiction | reflexivity]. }
  split.
  - apply Hserve; [now rewrite !Htruthy | assumption].
  - apply Hserve.
    + rewrite (Htruthy u Hu). now destruct u.
    + apply rstrip_more.
Qed.

Lemma trailing_slashes_do_not_matter_witness :
  serve Scenario.all_well (with_url Scenario.cfg "https://harbor.local///")
  = serve Scenario.all_well (with_url Scenario.cfg "https://harbor.local").
Proof.
  destruct (trailing_slashes_do_not_matter Scenario.all_well Scenario.cfg
              "https://harbor.local///" "https://harbor.local") as [H _].
  - intros E. discriminate E.
  - intros E. discriminate E.
  - reflexivity.
  - exact H.
Defined.

(** ** Loading the configuration *)

Module ConfigFacts.
Import Config.

Lemma get_set {V} (k k' : string) (v : V) (d : Dict V) :
  get k (set k' v d) = if String.eqb k k' then Some v else get k d.
Proof.
  induction d as [|[k0 v0] d IH]; simpl.
  - reflexivity.
  - destruct (String.eqb_spec k' k0) as [->|Hne]; simpl.
    + now destruct (String.eqb k k0).
    + rewrite IH. destruct (String.eqb_spec k k0) as [->|Hk]; [|reflexivity].
      destruct (String.eqb_spec k0 k') as [E|_]; [|reflexivity].
      now elim Hne.
Qed.

Lemma get_absent {V} (k : string) (d : Dict V) :
  ~ In k (map fst d) -> get k d = None.
Proof.
  induction d as [|[k0 v0] d IH]; simpl; intros H; [reflexivity|].
  destruct (String.eqb_spec k k0) as [->|_]; [elim H; now left|].
  apply IH. intros Hin. apply H. now right.
Qed.

(** The value of a key after [update]: the override if there is one, the
    old value otherwise. *)
Lemma get_update {V} (k : string) (d other : Dict V) :
  NoDup (map fst other) ->
  get k (update d other)
  = match get k other with
    | Some v => Some v
    | None => get k d
    end.
Proof.
  unfold update. revert d.
  induction other as [|[k1 v1] other IH]; intros d Hnd; simpl; [reflexivity|].
  inversion Hnd as [|? ? Hnotin Hnd']; subst.
  rewrite (IH _ Hnd'), get_set.
  destruct (String.eqb_spec k k1) as [->|_]; [|reflexivity].
  now rewrite (get_absent _ _ Hnotin).
Qed.

Lemma set_same {V} (k : string) (v : V) (d : Dict V) :
  get k d = Some v -> set k v d = d.
Proof.
  induction d as [|[k0 v0] d IH]; simpl; [discriminate|].
  destruct (String.eqb_spec k k0) as [->|_]; intros H.
  - now inversion H.
  - now rewrite (IH H).
Qed.

Lemma update_fixed {V} (d other : Dict V) :
  Forall (fun kv => get (fst kv) d = Some (snd kv)) other ->
  update d other = d.
Proof.
  unfold update. induction 1 as [|[k v] other Hkv _ IH]; simpl; [reflexivity|].
  simpl in Hkv. now rewrite (set_same _ _ _ Hkv).
Qed.

Lemma get_member {V} (d : Dict V) :
  NoDup (map fst d) -> Forall (fun kv => get (fst kv) d = Some (snd kv)) d.
Proof.
  induction d as [|[k v] d IH]; intros Hnd; constructor; simpl.
  - now rewrite String.eqb_refl.
  - inversion Hnd as [|? ? Hnotin Hnd']; subst.
    eapply Forall_impl; [|exact (IH Hnd')].
    intros [k' v'] Hkv. simpl in *.
    destruct (String.eqb_spec k' k) as [->|_]; [|assumption].
    rewrite (get_absent _ _ Hnotin) in Hkv. discriminate Hkv.
Qed.

Lemma update_twice {V} (d other : Dict V) :
  NoDup (map fst other) -> update (update d other) other = update d other.
Proof.
  intros Hnd. apply update_fixed.
  eapply Forall_impl; [|exact (get_member _ Hnd)].
  intros [k v] Hkv. simpl in *. now rewrite (get_update _ _ _ Hnd), Hkv.
Qed.

Section Merge.

Context {V : Type}.
Variable file_config : Dict (Member V).
Variable config : Dict Ref.

Lemma merge_elsewhere (names : list string) (h : Heap V) (l : Ref) :
  (forall s, In s names -> get s config <> Some l) ->
  snd (merge names file_config config h) l = h l.
Proof.
  revert h. induction names as [|s rest IH]; intros h Hl; simpl; [reflexivity|].
  assert (Hrest : forall s', In s' rest -> get s' config <> Some l)
    by (intros s' Hs'; apply Hl; now right).
  destruct (get s file_config) as [member|]; [|now apply IH].
  destruct (get s config) as [l0|] eqn:E; [|reflexivity].
  assert (Hw : write h l0 (update (h l0) (applied member)) l = h l).
  { unfold write. destruct (Nat.eqb_spec l l0) as [->|_]; [|reflexivity].
    elim (Hl s (or_introl eq_refl)). exact E. }
  destruct (failure member); [exact Hw|].
  now rewrite IH.
Qed.

(** What the merge leaves in a section's object: the object is updated
    when the loop gets to the section and the file names it. *)
Lemma merge_section (names : list string) (h : Heap V) :
  NoDup names ->
  (forall s, In s names -> exists l, get s config = Some l) ->
  (forall s s', In s names -> In s' names -> get s config = get s' config -> s = s') ->
  forall s l, In s names -> get s config = Some l ->
    snd (merge names file_config config h) l = merged file_config h names s l.
Proof.
  revert h. induction names as [|s0 rest IH]; intros h Hnd Hall Hinj s l Hs Hl;
    [destruct Hs|].
  inversion Hnd as [|? ? Hnotin Hnd']; subst.
  destruct (Hall s0 (or_introl eq_refl)) as [l0 Hl0].
  assert (Hrest : forall s, In s rest -> get s config <> Some l0).
  { intros s' Hs' E. rewrite <- Hl0 in E.
    apply Hnotin. rewrite <- (Hinj s' s0 (or_intror Hs') (or_introl eq_refl) E).
    exact Hs'. }
  assert (Hall' : forall s, In s rest -> exists l, get s config = Some l)
    by (intros s' Hs'; apply Hall; now right).
  assert (Hinj' : forall s s', In s rest -> In s' rest ->
                    get s config = get s' config -> s = s')
    by (intros s1 s2 H1 H2; apply Hinj; now right).
  unfold merged. cbn [merge gets_to].
  destruct Hs as [<-|Hs].
  - rewrite String.eqb_refl. rewrite Hl0 in Hl. inversion Hl; subst l0.
    destruct (get s0 file_config) as [member|].
    + rewrite Hl0.
      destruct (failure member); cbn [snd];
        [|rewrite (merge_elsewhere _ _ _ Hrest)];
        unfold write; now rewrite Nat.eqb_refl.
    + apply (merge_elsewhere _ _ _ Hrest).
  - assert (Hne : String.eqb s0 s = false).
    { apply String.eqb_neq. intros ->. contradiction. }
    assert (Hlne : Nat.eqb l l0 = false).
    { apply Nat.eqb_neq. intros ->. exact (Hrest s Hs Hl). }
    rewrite Hne.
    destruct (get s0 file_config) as [member|].
    + rewrite Hl0.
      destruct (failure member); cbn [snd].
      * unfold write. now rewrite Hlne.
      * rewrite (IH _ Hnd' Hall' Hinj' s l Hs Hl). unfold merged, write.
        now rewrite Hlne.
    + apply (IH _ Hnd' Hall' Hinj' s l Hs Hl).
Qed.

(** With objects only under the names of the loop, the merge gets to
    every one of them. *)
Lemma gets_to_objects (names : list string) (s : string) :
  (forall name member,
      In name names -> get name file_config = Some member -> failure member = None) ->
  In s names -> gets_to names file_config s = true.
Proof.
  induction names as [|s0 rest IH]; intros Hobj Hs; [destruct Hs|].
  cbn [gets_to]. destruct (String.eqb_spec s0 s) as [_|Hne]; [reflexivity|].
  destruct Hs as [E|Hs]; [contradiction|].
  assert (Hobj' : forall name member,
             In name rest -> get name file_config = Some member ->
             failure member = None)
    by (intros name member Hn; apply Hobj; now right).
  destruct (get s0 file_config) as [member|] eqn:E; [|now apply IH].
  rewrite (Hobj s0 member (or_introl eq_refl) E). now apply IH.
Qed.

End Merge.

Lemma sections_nodup : NoDup sections.
Proof.
  unfold sections. repeat constructor; simpl; intuition discriminate.
Qed.

End ConfigFacts.

Section Loaded.

Import Config.

Context {V : Type}.
Variable read_json : string -> exn + Dict (Member V).
Variable defaults : Dict Ref.
Variable filepath : string.
Variable h : Heap V.
Variable file_config : Dict (Member V).

Hypothesis readable : read_json filepath = inr file_config.
Hypothesis all_sections :
  forall s, In s sections -> exists l, get s defaults = Some l.
Hypothesis own_objects :
  forall s s', In s sections -> In s' sections ->
               get s defaults = get s' defaults -> s = s'.

Lemma loaded_section (s : string) (l : Ref) :
  In s sections -> get s defaults = Some l ->
  snd (load_config read_json defaults filepath h) l
  = merged file_config h sections s l.
Proof.
  intros Hs Hl. unfold load_config. rewrite readable. cbn [snd].
  now apply (ConfigFacts.merge_section file_config defaults sections h
               ConfigFacts.sections_nodup all_sections own_objects).
Qed.

Lemma loaded_elsewhere (l : Ref) :
  (forall s, In s sections -> get s defaults <> Some l) ->
  snd (load_config read_json defaults filepath h) l = h l.
Proof.
  intros Hl. unfold load_config. rewrite readable. cbn [snd].
  now apply ConfigFacts.merge_elsewhere.
Qed.

End Loaded.

(** X9: when the file is read and the defaults hold the three sections as
    three distinct objects, [load_config] returns a dict with the very
    section objects of [defaults], updated in place.  A section is merged
    when the loop of line 126 gets to it, that is when [dict.update]
    accepted the file's member of every section listed before it; under a
    merged section a key reads the file's value if the file sets it (known
    to the defaults or not) and the default otherwise; a section the loop
    does not get to, and every other object, is untouched.  When the
    file's three members are JSON objects the loop gets to every section.
    The defaults passed in therefore read the merged values afterwards. *)
Theorem load_config_overrides_in_place {V : Type}
    (read_json : string -> exn + Config.Dict (Config.Member V))
    (defaults : Config.Dict Config.Ref) (filepath : string) (h : Config.Heap V)
    (file_config : Config.Dict (Config.Member V)) :
  read_json filepath = inr file_config ->
  (forall s, In s Config.sections -> exists l, Config.get s defaults = Some l) ->
  (forall s s', In s Config.sections -> In s' Config.sections ->
                Config.get s defaults = Config.get s' defaults -> s = s') ->
  (forall s member,
      Config.get s file_config = Some member ->
      NoDup (map fst (Config.applied member))) ->
  let loaded := Config.load_config read_json defaults filepath h in
  fst loaded = defaults
  /\ (forall s l k,
         In s Config.sections -> Config.get s defaults = Some l ->
         Config.get k (snd loaded l)
         = if Config.gets_to Config.sections file_config s then
             match Config.get s file_config with
             | Some member =>
                 match Config.get k (Config.applied member) with
                 | Some v => Some v
                 | None => Config.get k (h l)
                 end
             | None => Config.get k (h l)
             end
           else Config.get k (h l))
  /\ (forall l,
         (forall s, In s Config.sections -> Config.get s defaults <> Some l) ->
         snd loaded l = h l)
  /\ ((forall s member,
          In s Config.sections -> Config.get s file_config = Some member ->
          Config.failure member = None) ->
      forall s, In s Config.sections ->
                Config.gets_to Config.sections file_config s = true).
Proof.
  intros Hread Hall Hown Hkeys. cbv zeta. repeat split.
  - unfold Config.load_config. now rewrite Hread.
  - intros s l k Hs Hl.
    rewrite (loaded_section read_json defaults filepath h file_config
               Hread Hall Hown s l Hs Hl).
    unfold Config.merged.
    destruct (Config.gets_to Config.sections file_config s); [|reflexivity].
    destruct (Config.get s file_config) as [member|] eqn:E; [|reflexivity].
    apply ConfigFacts.get_update. exact (Hkeys s member E).
  - intros l Hl.
    exact (loaded_elsewhere read_json defaults filepath h file_config Hread l Hl).
  - intros Hobj s Hs. now apply ConfigFacts.gets_to_objects.
Qed.

Lemma load_config_overrides_in_place_witness :
  let loaded := Config.load_config (Config.reads Config.null_harbor_file)
                  Config.DEFAULT_CONFIG Config.CONFIG_FILE_PATH
                  Config.default_sections in
  Config.get "port" (snd loaded 2) = Some (Config.SInt 5000)
  /\ Config.get "url" (snd loaded 1) = Some (Config.SStr EmptyString).
Proof.
  destruct (load_config_overrides_in_place (Config.reads Config.null_harbor_file)
              Config.DEFAULT_CONFIG Config.CONFIG_FILE_PATH
              Config.default_sections Config.null_harbor_file) as (_ & H & _).
  - reflexivity.
  - intros s [<-|[<-|[<-|[]]]]; eexists; reflexivity.
  - intros s s' [<-|[<-|[<-|[]]]] [<-|[<-|[<-|[]]]] E;
      try reflexivity; discriminate E.
  - intros s member E. unfold Config.null_harbor_file in E. simpl in E.
    destruct (String.eqb s "harbor_config");
      [inversion E; subst; constructor|].
    destruct (String.eqb s "app_config"); [|discriminate E].
    inversion E; subst. repeat constructor. simpl. intuition.
  - cbv zeta. split.
    + rewrite (H "app_config" 2); [reflexivity | simpl; tauto | reflexivity].
    + rewrite (H "harbor_config" 1); [reflexivity | simpl; tauto | reflexivity].
Defined.

(** X10: loading the same readable file a second time, into what the
    first load returned, changes nothing. *)
Theorem load_config_twice {V : Type}
    (read_json : string -> exn + Config.Dict (Config.Member V))
    (defaults : Config.Dict Config.Ref) (filepath : string) (h : Config.Heap V)
    (file_config : Config.Dict (Config.Member V)) :
  read_json filepath = inr file_config ->
  (forall s, In s Config.sections -> exists l, Config.get s defaults = Some l) ->
  (forall s s', In s Config.sections -> In s' Config.sections ->
                Config.get s defaults = Config.get s' defaults -> s = s') ->
  (forall s member,
      Config.get s file_config = Some member ->
      NoDup (map fst (Config.applied member))) ->
  let once := Config.load_config read_json defaults filepath h in
  let twice := Config.load_config read_json (fst once) filepath (snd once) in
  fst twice = fst once /\ forall l, snd twice l = snd once l.
Proof.
  intros Hread Hall Hown Hkeys. cbv zeta.
  assert (Hfst : forall h0, fst (Config.load_config read_json defaults filepath h0)
                            = defaults)
    by (intros h0; unfold Config.load_config; now rewrite Hread).
  rewrite !Hfst. split; [reflexivity|].
  intros l.
  assert (Hdec : (exists s, In s Config.sections /\ Config.get s defaults = Some l)
                 \/ forall s, In s Config.sections -> Config.get s defaults <> Some l).
  { destruct (Hall "crictl_config") as [l0 H0]; [simpl; tauto|].
    destruct (Hall "harbor_config") as [l1 H1]; [simpl; tauto|].
    destruct (Hall "app_config") as [l2 H2]; [simpl; tauto|].
    destruct (Nat.eq_dec l l0) as [->|N0];
      [left; exists "crictl_config"; split; [simpl; tauto | assumption]|].
    destruct (Nat.eq_dec l l1) as [->|N1];
      [left; exists "harbor_config"; split; [simpl; tauto | assumption]|].
    destruct (Nat.eq_dec l l2) as [->|N2];
      [left; exists "app_config"; split; [simpl; tauto | assumption]|].
    right. intros s [<-|[<-|[<-|[]]]] E; congruence. }
  destruct Hdec as [(s & Hs & Hl)|Hnone].
  - rewrite !(loaded_section read_json defaults filepath _ file_config
                Hread Hall Hown s l Hs Hl).
    unfold Config.merged.
    rewrite (loaded_section read_json defaults filepath h file_config
               Hread Hall Hown s l Hs Hl).
    unfold Config.merged.
    destruct (Config.gets_to Config.sections file_config s); [|reflexivity].
    destruct (Config.get s file_config) as [member|] eqn:E; [|reflexivity].
    apply ConfigFacts.update_twice. exact (Hkeys s member E).
  - now rewrite !(loaded_elsewhere read_json defaults filepath _ file_config Hread l Hnone).
Qed.

Lemma load_config_twice_witness :
  let once := Config.load_config (Config.reads Config.harbor_file)
                Config.DEFAULT_CONFIG Config.CONFIG_FILE_PATH
                Config.default_sections in
  snd (Config.load_config (Config.reads Config.harbor_file) (fst once)
         Config.CONFIG_FILE_PATH (snd once)) 1
  = snd once 1.
Proof.
  destruct (load_config_twice (Config.reads Config.harbor_file)
              Config.DEFAULT_CONFIG Config.CONFIG_FILE_PATH
              Config.default_sections Config.harbor_file) as (_ & H).
  - reflexivity.
  - intros s [<-|[<-|[<-|[]]]]; eexists; reflexivity.
  - intros s s' [<-|[<-|[<-|[]]]] [<-|[<-|[<-|[]]]] E;
      try reflexivity; discriminate E.
  - intros s member E. unfold Config.harbor_file in E. simpl in E.
    destruct (String.eqb s "harbor_config");
      [inversion E; subst; repeat constructor; simpl; intuition discriminate|].
    destruct (String.eqb s "notes"); [|discriminate E].
    inversion E; subst. repeat constructor. simpl. intuition.
  - cbv zeta. apply H.
Defined.

Lemma get_known_sections_only {V} (s : string)
    (file_config : Config.Dict (Config.Member V)) :
  In s Config.sections ->
  Config.get s (Config.known_sections_only file_config) = Config.get s file_config.
Proof.
  intros Hs. unfold Config.known_sections_only.
  induction file_config as [|[k v] d IH]; [reflexivity|].
  cbn [filter fst].
  destruct (existsb (String.eqb k) Config.sections) eqn:Hk; cbn [Config.get].
  - now rewrite IH.
  - rewrite IH. destruct (String.eqb_spec s k) as [->|_]; [|reflexivity].
    assert (Hin : existsb (String.eqb k) Config.sections = true)
      by (apply existsb_exists; exists k; split; [assumption | apply String.eqb_refl]).
    rewrite Hin in Hk. discriminate Hk.
Qed.

Lemma merge_same_sections {V} (names : list string)
    (f1 f2 : Config.Dict (Config.Member V)) (config : Config.Dict Config.Ref) :
  (forall s, In s names -> Config.get s f1 = Config.get s f2) ->
  forall h, Config.merge names f1 config h = Config.merge names f2 config h.
Proof.
  induction names as [|s rest IH]; intros Hsame h; simpl; [reflexivity|].
  assert (Hrest : forall s', In s' rest -> Config.get s' f1 = Config.get s' f2)
    by (intros s' Hs'; apply Hsame; now right).
  rewrite (Hsame s (or_introl eq_refl)).
  destruct (Config.get s f2) as [member|]; [|now apply IH].
  destruct (Config.get s config); [|reflexivity].
  destruct (Config.failure member); [reflexivity | now apply IH].
Qed.

(** X11: only the members [crictl_config], [harbor_config] and
    [app_config] of the file are read: any other member (a misspelt
    section name, say) has no effect on what [load_config] returns and
    leaves behind. *)
Theorem load_config_ignores_other_sections {V : Type}
    (read_json : string -> exn + Config.Dict (Config.Member V))
    (defaults : Config.Dict Config.Ref) (filepath : string) (h : Config.Heap V) :
  Config.load_config
    (fun path => match read_json path with
                 | inr file_config => inr (Config.known_sections_only file_config)
                 | inl e => inl e
                 end) defaults filepath h
  = Config.load_config read_json defaults filepath h.
Proof.
  unfold Config.load_config.
  destruct (read_json filepath) as [e|file_config]; [reflexivity|].
  f_equal. f_equal. apply merge_same_sections.
  intros s Hs. now apply get_known_sections_only.
Qed.

Lemma merge_app {V} (before rest : list string)
    (file_config : Config.Dict (Config.Member V)) (config : Config.Dict Config.Ref)
    (h : Config.Heap V) :
  Config.merge (before ++ rest) file_config config h
  = match Config.merge before file_config config h with
    | (Some e, h1) => (Some e, h1)
    | (None, h1) => Config.merge rest file_config config h1
    end.
Proof.
  revert h. induction before as [|s before IH]; intros h; simpl; [reflexivity|].
  destruct (Config.get s file_config) as [member|]; [|apply IH].
  destruct (Config.get s config); [|reflexivity].
  destruct (Config.failure member); [reflexivity | apply IH].
Qed.

(** X12: a section that the file names but the defaults lack ends the
    merge - the [KeyError] is swallowed and [load_config] still returns
    the copy of the defaults; the sections listed after it are not
    merged, even when the file overrides them: every object that is not a
    section listed before it is left as it was. *)
Theorem load_config_stops_at_missing_section {V : Type}
    (read_json : string -> exn + Config.Dict (Config.Member V))
    (defaults : Config.Dict Config.Ref) (filepath : string) (h : Config.Heap V)
    (file_config : Config.Dict (Config.Member V))
    (before after : list string) (section : string) (member : Config.Member V) :
  read_json filepath = inr file_config ->
  Config.sections = before ++ section :: after ->
  Config.get section file_config = Some member ->
  Config.get section defaults = None ->
  let loaded := Config.load_config read_json defaults filepath h in
  fst loaded = defaults
  /\ forall l,
       (forall s, In s before -> Config.get s defaults <> Some l) ->
       snd loaded l = h l.
Proof.
  intros Hread Hsections Hfile Hdefaults. cbv zeta.
  unfold Config.load_config. rewrite Hread, Hsections. split; [reflexivity|].
  intros l Hl. cbn [snd]. rewrite merge_app.
  pose proof (ConfigFacts.merge_elsewhere file_config defaults before h l Hl) as Hb.
  destruct (Config.merge before file_config defaults h) as [[e|] h1]; simpl in *.
  - exact Hb.
  - now rewrite Hfile, Hdefaults.
Qed.

Lemma load_config_stops_at_missing_section_witness :
  snd (Config.load_config (Config.reads Config.crictl_and_harbor_file)
         Config.two_sections Config.CONFIG_FILE_PATH Config.default_sections) 1
  = Config.default_sections 1.
Proof.
  destruct (load_config_stops_at_missing_section
              (Config.reads Config.crictl_and_harbor_file)
              Config.two_sections Config.CONFIG_FILE_PATH Config.default_sections
              Config.crictl_and_harbor_file
              [] ["harbor_config"; "app_config"] "crictl_config"
              (Config.object [("ignore_file_path", Config.SStr "ignore.txt")]))
    as (_ & H).
  - reflexivity.
  - reflexivity.
  - reflexivity.
  - reflexivity.
  - apply H. intros s [].
Defined.

Lemma unconfigured_response (w : World) (cfg : AppSettings) :
  configured cfg = false ->
  filter is_harbor (errors (payload (response w cfg)))
  = [unscoped_error "harbor" "Harbor configuration incomplete"]
  /\ harbor_images (payload (response w cfg)) = []
  /\ sent (snd (serve w cfg)) = [].
Proof.
  intros Hcfg. rewrite sent_serve, Hcfg.
  destruct (payload_parts w cfg) as (-> & _ & ->).
  rewrite harbor_alone_run. unfold after_harbor. rewrite Hcfg. simpl.
  repeat split.
  rewrite filter_app, (filter_none _ _ (containerd_errors_not_harbor _ _)).
  reflexivity.
Qed.

(** X13: when [config.json] cannot be read, or is read and has neither a
    [harbor_config] nor a [crictl_config] member, the settings installed
    at import time are those of [DEFAULT_CONFIG]: the registry URL, user
    and password are empty, so every [GET /images] reports "Harbor
    configuration incomplete", returns no harbor image and sends nothing
    to a registry. *)
Theorem unconfigured_out_of_the_box
    (read_json : string -> exn + Config.Dict (Config.Member Config.Setting)) :
  (forall file_config,
      read_json Config.CONFIG_FILE_PATH = inr file_config ->
      Config.get "harbor_config" file_config = None
      /\ Config.get "crictl_config" file_config = None) ->
  exists cfg,
    Config.installed_settings read_json = Some cfg
    /\ url (harbor_config cfg) = EmptyString
    /\ user (harbor_config cfg) = EmptyString
    /\ password (harbor_config cfg) = EmptyString
    /\ ignore_file_path (crictl_config cfg) = "images_to_ignore.txt"
    /\ forall w,
         filter is_harbor (errors (payload (response w cfg)))
         = [unscoped_error "harbor" "Harbor configuration incomplete"]
         /\ harbor_images (payload (response w cfg)) = []
         /\ sent (snd (serve w cfg)) = [].
Proof.
  intros Hfile.
  exists {| crictl_config := {| ignore_file_path := "images_to_ignore.txt" |};
            harbor_config := {| url := EmptyString; user := EmptyString;
                                password := EmptyString; verify_ssl := true |} |}.
  split; [|repeat split; try reflexivity; now apply unconfigured_response].
  unfold Config.installed_settings, Config.load_config.
  destruct (read_json Config.CONFIG_FILE_PATH) as [e|file_config] eqn:E;
    [reflexivity|].
  destruct (Hfile file_config eq_refl) as [Hh Hc].
  unfold Config.sections. simpl. rewrite Hh, Hc.
  destruct (Config.get "app_config" file_config) as [member|]; [|reflexivity].
  destruct (Config.failure member); reflexivity.
Qed.

Lemma unconfigured_out_of_the_box_witness :
  exists cfg,
    Config.installed_settings Config.missing_file = Some cfg
    /\ sent (snd (serve Scenario.all_well cfg)) = [].
Proof.
  destruct (unconfigured_out_of_the_box Config.missing_file) as (cfg & H & _ & _ & _ & _ & Hw).
  - intros file_config E. discriminate E.
  - exists cfg. split; [exact H | apply Hw].
Defined.

(** ** Setting up logging *)

Lemma remove_all_handlers_empty (lg : Logging.Logger) :
  Logging.handlers (Logging.remove_all_handlers lg) = [].
Proof.
  unfold Logging.remove_all_handlers. simpl.
  induction (Logging.handlers lg) as [|x l IH]; simpl; [reflexivity|].
  now rewrite Nat.eqb_refl.
Qed.

Lemma remove_all_handlers_level (lg : Logging.Logger) :
  Logging.remove_all_handlers lg
  = {| Logging.handlers := []; Logging.level := Logging.level lg |}.
Proof.
  pose proof (remove_all_handlers_empty lg) as H.
  unfold Logging.remove_all_handlers in *. simpl in *. now rewrite H.
Qed.

(** X14: when the log file can be opened and both level names are known,
    [setup_logging] leaves the root logger and the Flask logger with
    exactly one handler each - the same, newly created file handler, with
    the module's format and the configured level - whatever handlers they
    held before, duplicates included; both loggers get the application
    level.  Running it again replaces that handler by a new one rather
    than adding to it. *)
Theorem setup_logging_installs_one_handler
    (open_log : string -> exn + unit) (config : Logging.LogSettings)
    (st : Logging.Loggers) (app_level handler_level : Z) :
  open_log (Logging.log_file config) = inr tt ->
  Logging.check_level (Logging.log_level_app config) = inr app_level ->
  Logging.check_level (Logging.log_level_file_handler config) = inr handler_level ->
  let n := List.length (Logging.created st) in
  let file_handler :=
    {| Logging.filename := Logging.log_file config;
       Logging.maxBytes := Logging.log_max_bytes config;
       Logging.backupCount := Logging.log_backup_count config;
       Logging.formatter := Some Logging.log_format;
       Logging.handler_level := handler_level |} in
  let once := Logging.setup_logging open_log config st in
  once
  = (inr tt,
     {| Logging.root_logger := {| Logging.handlers := [n]; Logging.level := app_level |};
        Logging.app_logger := {| Logging.handlers := [n]; Logging.level := app_level |};
        Logging.created := Logging.created st ++ [file_handler] |})
  /\ (let twice := Logging.setup_logging open_log config (snd once) in
      Logging.handlers (Logging.root_logger (snd twice)) = [S n]
      /\ Logging.handlers (Logging.app_logger (snd twice)) = [S n]).
Proof.
  intros Hopen Happ Hfh. cbv zeta.
  assert (Hrun : forall st0,
             Logging.setup_logging open_log config st0
             = (inr tt,
                {| Logging.root_logger :=
                     {| Logging.handlers := [List.length (Logging.created st0)];
                        Logging.level := app_level |};
                   Logging.app_logger :=
                     {| Logging.handlers := [List.length (Logging.created st0)];
                        Logging.level := app_level |};
                   Logging.created :=
                     Logging.created st0
                     ++ [ {| Logging.filename := Logging.log_file config;
                             Logging.maxBytes := Logging.log_max_bytes config;
                             Logging.backupCount := Logging.log_backup_count config;
                             Logging.formatter := Some Logging.log_format;
                             Logging.handler_level := handler_level |} ] |})).
  { intros st0. unfold Logging.setup_logging.
    rewrite Hopen, Hfh, Happ, !remove_all_handlers_level. reflexivity. }
  split; [apply Hrun|].
  rewrite (Hrun st). cbn [snd]. rewrite Hrun. cbn [snd Logging.root_logger
    Logging.app_logger Logging.handlers Logging.created].
  rewrite length_app. simpl. rewrite Nat.add_1_r. split; reflexivity.
Qed.

Lemma setup_logging_installs_one_handler_witness :
  Logging.handlers
    (Logging.root_logger
       (snd (Logging.setup_logging Logging.writable Logging.defaults Logging.busy)))
  = [2].
Proof.
  destruct (setup_logging_installs_one_handler Logging.writable Logging.defaults
              Logging.busy 30 30) as [H _].
  - reflexivity.
  - reflexivity.
  - reflexivity.
  - cbv zeta in H. rewrite H. reflexivity.
Defined.

(** X15: [setup_logging] is not atomic.  Whenever it raises - the log file
    cannot be opened, or a level name is unknown - the root logger has
    already lost the handlers it held (it is left with none, or with the
    new file handler alone when the application level is the bad one) and
    keeps its old level, while the Flask logger is untouched.  It raises
    exactly in those cases. *)
Theorem setup_logging_failure_is_partial
    (open_log : string -> exn + unit) (config : Logging.LogSettings)
    (st : Logging.Loggers) :
  let run := Logging.setup_logging open_log config st in
  let n := List.length (Logging.created st) in
  (forall e,
      fst run = inl e ->
      Logging.app_logger (snd run) = Logging.app_logger st
      /\ Logging.level (Logging.root_logger (snd run))
         = Logging.level (Logging.root_logger st)
      /\ (Logging.handlers (Logging.root_logger (snd run)) = []
          \/ Logging.handlers (Logging.root_logger (snd run)) = [n]))
  /\ (forall e,
         open_log (Logging.log_file config) = inl e ->
         fst run = inl e
         /\ Logging.handlers (Logging.root_logger (snd run)) = []
         /\ Logging.created (snd run) = Logging.created st)
  /\ (fst run = inr tt
      <-> open_log (Logging.log_file config) = inr tt
          /\ (exists a, Logging.check_level (Logging.log_level_app config) = inr a)
          /\ (exists b, Logging.check_level (Logging.log_level_file_handler config)
                        = inr b)).
Proof.
  cbv zeta. unfold Logging.setup_logging.
  rewrite !remove_all_handlers_level.
  destruct (open_log (Logging.log_file config)) as [e0|[]].
  { split; [|split].
    - intros e _. simpl. auto.
    - intros e H. inversion H; subst. simpl. auto.
    - split; [intros H; discriminate H | intros (H & _); discriminate H]. }
  destruct (Logging.check_level (Logging.log_level_file_handler config)) as [e1|b].
  { split; [|split].
    - intros e _. simpl. auto.
    - intros e H. discriminate H.
    - split; [intros H; discriminate H | intros (_ & _ & b & H); discriminate H]. }
  destruct (Logging.check_level (Logging.log_level_app config)) as [e2|a].
  { split; [|split].
    - intros e _. simpl. auto.
    - intros e H. discriminate H.
    - split; [intros H; discriminate H | intros (_ & (a & H) & _); discriminate H]. }
  split; [|split].
  - intros e H. discriminate H.
  - intros e H. discriminate H.
  - split; [intros _; eauto | reflexivity].
Qed.

Lemma setup_logging_failure_is_partial_witness :
  Logging.handlers
    (Logging.root_logger
       (snd (Logging.setup_logging Logging.read_only Logging.defaults Logging.busy)))
  = []
  /\ Logging.app_logger
       (snd (Logging.setup_logging Logging.read_only Logging.defaults Logging.busy))
     = Logging.app_logger Logging.busy.
Proof.
  destruct (setup_logging_failure_is_partial Logging.read_only Logging.defaults
              Logging.busy) as (Hany & Hopen & _).
  destruct (Hopen (Exception "Permission denied") eq_refl) as (Hraise & Hroot & _).
  destruct (Hany _ Hraise) as (Happ & _).
  split; assumption.
Defined.

(** ** The artifact URL *)

(** X16: the URL the handler asks a repository's artifacts at extends the
    repository-listing URL of the project by exactly two path segments:
    the encoded repository name, which holds no ['/'] however deep the
    repository path is, and [artifacts]. *)
Theorem artifacts_url_adds_two_segments (harbor_cfg : HarborConfig)
    (p : Project) (r : Repository) :
  let segment := encode_repository_name (repo_name r) (proj_name p) in
  req_url (artifacts_request harbor_cfg p r)
  = (req_url (repositories_request harbor_cfg p) ++ "/" ++ segment ++ "/artifacts")%string
  /\ PyStr.contains PyStr.slash segment = false.
Proof.
  cbv zeta. split; [|apply encode_output_clean].
  simpl. unfold artifacts_url, repos_url.
  rewrite <- !PyStrFacts.append_assoc. reflexivity.
Qed.
